(** * ERRANT (Hindi fork): the suffix-stripping stemmer and the parallel_to_m2 driver

    A shallow embedding of

    - [errant/hi/hindi_stemmer.py]  ([HindiStemmer.stem]), and
    - [errant/commands/parallel_to_m2.py]  ([main], [process_sentences]),

    together with the properties their specification states about them. *)

From Stdlib Require Import Ascii.
From stdpp Require Import base option list strings pretty gmap.

(** ** Part I: [errant/hi/hindi_stemmer.py] *)

Module HindiStemmer.

(** A Python 3 [str] is a sequence of Unicode code points, and [len],
    [endswith] and slicing all count code points.  A word is therefore a
    list of code points. *)
Definition str := list N.

(** The [suffixes] dict literal of [stem], in source order.  Each entry is
    written as the code points of the Devanagari string in the source. *)
Definition suffixes : list (nat * list str) :=
  [ (1%nat, [ [2379]; [2375]; [2370]; [2369]; [2368]; [2367]; [2366] ]);
    (2%nat, [ [2325; 2352]; [2366; 2323]; [2367; 2319]; [2366; 2312];
          [2366; 2319]; [2344; 2375]; [2344; 2368]; [2344; 2366];
          [2340; 2375]; [2368; 2306]; [2340; 2368]; [2340; 2366];
          [2366; 2305]; [2366; 2306]; [2379; 2306];
          [2375; 2306] ]);
    (3%nat, [ [2366; 2325; 2352]; [2366; 2311; 2319]; [2366; 2312; 2306];
          [2366; 2351; 2366]; [2375; 2327; 2368]; [2375; 2327; 2366];
          [2379; 2327; 2368]; [2379; 2327; 2375]; [2366; 2344; 2375];
          [2366; 2344; 2366]; [2366; 2340; 2375]; [2366; 2340; 2368];
          [2366; 2340; 2366];
          [2340; 2368; 2306]; [2366; 2323; 2306]; [2366; 2319; 2306];
          [2369; 2323; 2306]; [2369; 2319; 2306]; [2369; 2310; 2306] ]);
    (4%nat, [ [2366; 2319; 2327; 2368]; [2366; 2319; 2327; 2366];
          [2366; 2323; 2327; 2368]; [2366; 2323; 2327; 2375];
          [2319; 2306; 2327; 2368]; [2375; 2306; 2327; 2368];
          [2319; 2306; 2327; 2375]; [2375; 2306; 2327; 2375];
          [2370; 2306; 2327; 2368]; [2370; 2306; 2327; 2366];
          [2366; 2340; 2368; 2306];
          [2344; 2366; 2323; 2306]; [2344; 2366; 2319; 2306];
          [2340; 2366; 2323; 2306]; [2340; 2366; 2319; 2306];
          [2367; 2351; 2366; 2305]; [2367; 2351; 2379; 2306];
          [2367; 2351; 2366; 2306] ]);
    (5%nat, [ [2366; 2319; 2306; 2327; 2368]; [2366; 2319; 2306; 2327; 2375];
          [2366; 2314; 2306; 2327; 2368]; [2366; 2314; 2306; 2327; 2366];
          [2366; 2311; 2351; 2366; 2305]; [2366; 2311; 2351; 2379; 2306];
          [2366; 2311; 2351; 2366; 2306] ]) ]%N.

(** [d[k]] on a dict literal: [None] stands for [KeyError]. *)
Fixpoint dict_get {V} (d : list (nat * V)) (k : nat) : option V :=
  match d with
  | [] => None
  | (k', v) :: d' => if bool_decide (k' = k) then Some v else dict_get d' k
  end.

(** [word.endswith(suf)]. *)
Definition endswith (word suf : str) : bool :=
  bool_decide (length suf ≤ length word)
  && bool_decide (drop (length word - length suf) word = suf).

(** [word[:-L]] for [L >= 1]: the stop index [len(word) - L] is clamped at
    0, which the truncated subtraction does. *)
Definition slice_neg (word : str) (L : nat) : str :=
  take (length word - L) word.

(** The order in which the outer loop visits the lengths. *)
Definition lengths : list nat := [5; 4; 3; 2; 1].

(** The inner loop [for suf in suffixes[L]]: [Some r] when the loop body
    executes [return r], [None] when the loop runs to its end. *)
Fixpoint scan (word : str) (L : nat) (sufs : list str) : option str :=
  match sufs with
  | [] => None
  | suf :: sufs' =>
      if endswith word suf then Some (slice_neg word L)
      else scan word L sufs'
  end.

(** The outer loop [for L in 5, 4, 3, 2, 1] followed by [return word].
    The outer [option] is the outcome of [stem]: [None] is a [KeyError]
    raised by [suffixes[L]]. *)
Fixpoint stem_from (word : str) (Ls : list nat) : option str :=
  match Ls with
  | [] => Some word
  | L :: Ls' =>
      if bool_decide (L + 1 < length word) then
        sufs ← dict_get suffixes L;
        match scan word L sufs with
        | Some r => Some r
        | None => stem_from word Ls'
        end
      else stem_from word Ls'
  end.

Definition stem (word : str) : option str := stem_from word lengths.

(** The suffix list the loop reads for a length, empty off the table. *)
Definition suffix_list (L : nat) : list str :=
  default [] (dict_get suffixes L).

(** A length is applicable to a word when its guard holds and its suffix
    list contains a suffix of the word. *)
Definition applicable (word : str) (L : nat) : bool :=
  bool_decide (L + 1 < length word)
  && existsb (endswith word) (suffix_list L).

(** Two words used in the examples: "करता" (to which the suffixes "ा" and
    "ता" both apply) and "कर". *)
Definition karata : str := [2325; 2352; 2340; 2366]%N.
Definition kara : str := [2325; 2352]%N.

End HindiStemmer.

(** ** Part II: [errant/commands/parallel_to_m2.py] *)

Module ParallelToM2.

(** Python strings of the driver are kept as [string] (their UTF-8 bytes):
    the driver only concatenates them, joins them and replaces the ASCII
    character [":"], and those operations commute with the encoding. *)
Definition nl : string := String (ascii_of_nat 10) "".
Definition tab : string := String (ascii_of_nat 9) "".

(** *** The external collaborators

    [stanfordnlp]'s [Document] and ERRANT's [Annotator] and [Edit] are not
    part of the driver.  They are represented by what the driver reads of
    them; their methods either return or raise. *)

(** Exceptions.  Only subclasses of [Exception] are modelled (what
    [except Exception] catches); all the driver observes of one is
    [str(e)]. *)
Inductive exn : Type := Exception (msg : string).

Definition str_of_exn (e : exn) : string := match e with Exception m => m end.

Inductive result (A : Type) : Type :=
  | Ok (a : A)
  | Raise (e : exn).
Arguments Ok {A} a.
Arguments Raise {A} e.

Record Word := { text : string }.
Record Sentence := { words : list Word }.
Record Document := { sentences : list Sentence }.

Record Edit := {
  type : string;                 (* [edit.type] *)
  to_m2 : nat → string;          (* [edit.to_m2(cor_id)] *)
  to_srctrg : string * string    (* [edit.to_srctrg()] *)
}.

Record Annotator := {
  parse : string → bool → result Document;
  annotate : Document → Document → bool → string → result (list Edit)
}.

(** The [argparse.Namespace] returned by [parse_args]. *)
Record Args := {
  orig : string;
  cor : list string;
  tok : bool;
  lev : bool;
  merge : string
}.

(** *** The world the driver runs in *)

(** A file object returned by [open(path, 'w')]. *)
Record file_obj := { f_name : string; f_closed : bool }.

(** The operations on the file system that may raise [OSError]. *)
Inductive io_op : Type :=
  | Makedirs (path : string)
  | Open (path : string)
  | Write (path : string) (data : string)
  | Close (path : string).

(** [error_count] and [out_files] are the two mutable objects [main]
    creates and shares with [process_sentences]; Python dicts keep insertion
    order, so both are association lists with unique keys.  File objects are
    referred to by their index in [handles].  [io_clock] counts the
    operations attempted so far, and [io_errors] records which of them
    raised. *)
Record world := World {
  error_count : list (string * nat);
  out_files : list (string * (nat * nat * nat));
  fs : gmap string string;
  dirs : gset string;
  handles : list file_obj;
  stdout : list string;
  io_clock : nat;
  io_errors : list (nat * io_op)
}.

Definition set_error_count (c : list (string * nat)) (w : world) : world :=
  World c (out_files w) (fs w) (dirs w) (handles w) (stdout w)
        (io_clock w) (io_errors w).
Definition set_out_files (o : list (string * (nat * nat * nat))) (w : world)
  : world :=
  World (error_count w) o (fs w) (dirs w) (handles w) (stdout w)
        (io_clock w) (io_errors w).
Definition set_fs (f : gmap string string) (w : world) : world :=
  World (error_count w) (out_files w) f (dirs w) (handles w) (stdout w)
        (io_clock w) (io_errors w).
Definition set_dirs (d : gset string) (w : world) : world :=
  World (error_count w) (out_files w) (fs w) d (handles w) (stdout w)
        (io_clock w) (io_errors w).
Definition set_handles (h : list file_obj) (w : world) : world :=
  World (error_count w) (out_files w) (fs w) (dirs w) h (stdout w)
        (io_clock w) (io_errors w).
Definition set_stdout (o : list string) (w : world) : world :=
  World (error_count w) (out_files w) (fs w) (dirs w) (handles w) o
        (io_clock w) (io_errors w).
Definition tick (w : world) : world :=
  World (error_count w) (out_files w) (fs w) (dirs w) (handles w) (stdout w)
        (S (io_clock w)) (io_errors w).
Definition log_io_error (op : io_op) (w : world) : world :=
  World (error_count w) (out_files w) (fs w) (dirs w) (handles w) (stdout w)
        (io_clock w) (io_errors w ++ [(io_clock w, op)]).

(** *** Computations: state and exceptions *)

Definition M (A : Type) : Type := world → result A * world.

#[global] Instance M_ret : MRet M := λ A a w, (Ok a, w).

#[global] Instance M_bind : MBind M := λ A B k m w,
  match m w with
  | (Ok a, w') => k a w'
  | (Raise e, w') => (Raise e, w')
  end.

Definition raise {A} (e : exn) : M A := λ w, (Raise e, w).
Definition gets {A} (f : world → A) : M A := λ w, (Ok (f w), w).
Definition modify (f : world → world) : M unit := λ w, (Ok tt, f w).

(** A pure call of an external method, which returns or raises. *)
Definition call {A} (r : result A) : M A := λ w, (r, w).

(** [try: body  except Exception as e: handler(e)] *)
Definition try_except {A} (body : M A) (handler : exn → M A) : M A := λ w,
  match body w with
  | (Ok a, w') => (Ok a, w')
  | (Raise e, w') => handler e w'
  end.

(** [try: body  finally: final].  An exception raised by [final] replaces
    the outcome of [body]. *)
Definition try_finally {A} (body : M A) (final : M unit) : M A := λ w,
  match body w with
  | (r, w') =>
      match final w' with
      | (Ok _, w'') => (r, w'')
      | (Raise e, w'') => (Raise e, w'')
      end
  end.

(** [for x in l: body(x)] *)
Fixpoint for_each {A} (l : list A) (body : A → M unit) : M unit :=
  match l with
  | [] => mret tt
  | x :: l' => body x;; for_each l' body
  end.

(** *** Python and library primitives *)

(** [s.replace(old, new)] for one-character [old] and [new]. *)
Fixpoint replace_char (old new : ascii) (s : string) : string :=
  match s with
  | "" => ""
  | String c s' =>
      String (if bool_decide (c = old) then new else c)
             (replace_char old new s')
  end.

(** [sep.join(l)] *)
Fixpoint str_join (sep : string) (l : list string) : string :=
  match l with
  | [] => ""
  | [x] => x
  | x :: l' => x +:+ sep +:+ str_join sep l'
  end.

(** [s.startswith("/")] and [s.endswith("/")] *)
Definition starts_with_sep (s : string) : bool :=
  match s with
  | String c _ => bool_decide (c = "/"%char)
  | "" => false
  end.
Fixpoint ends_with_sep (s : string) : bool :=
  match s with
  | "" => false
  | String c "" => bool_decide (c = "/"%char)
  | String _ s' => ends_with_sep s'
  end.

(** One step of POSIX [os.path.join]: an absolute component discards what
    precedes it; otherwise it is appended, after a separator unless the path
    so far is empty or already ends with one. *)
Definition path_join2 (path b : string) : string :=
  if starts_with_sep b then b
  else if bool_decide (path = "") || ends_with_sep path then path +:+ b
  else path +:+ "/" +:+ b.

(** [os.path.join(a, *p)] *)
Definition path_join (a : string) (p : list string) : string :=
  foldl path_join2 a p.

(** Dicts with string keys: [k in d], [d[k]] and [d[k] = v]. *)
Fixpoint dict_has {V} (d : list (string * V)) (k : string) : bool :=
  match d with
  | [] => false
  | (k', _) :: d' => bool_decide (k' = k) || dict_has d' k
  end.
Fixpoint dict_get {V} (d : list (string * V)) (k : string) : option V :=
  match d with
  | [] => None
  | (k', v) :: d' => if bool_decide (k' = k) then Some v else dict_get d' k
  end.
Fixpoint dict_set {V} (d : list (string * V)) (k : string) (v : V)
  : list (string * V) :=
  match d with
  | [] => [(k, v)]
  | (k', v') :: d' =>
      if bool_decide (k' = k) then (k', v) :: d'
      else (k', v') :: dict_set d' k v
  end.

(** [Counter.__getitem__]: a missing key counts 0. *)
Definition counter_get (c : list (string * nat)) (k : string) : nat :=
  default 0 (dict_get c k).

(** [c[k] += 1] *)
Definition counter_incr (c : list (string * nat)) (k : string)
  : list (string * nat) :=
  dict_set c k (counter_get c k + 1).

(** The file system after [data] is appended to the file at [path]. *)
Definition fs_append (path data : string) (files : gmap string string)
  : gmap string string :=
  <[path := default "" (files !! path) +:+ data]> files.

(** [print(s)] *)
Definition print (s : string) : M unit :=
  modify (λ w, set_stdout (stdout w ++ [s]) w).

Section Driver.

(** The environment decides which attempted operation raises [OSError],
    and with which message, from the number of operations attempted before
    it and the operation itself. *)
Variable io_fails : nat → io_op → option string.
Variable annotator : Annotator.

(** Attempt an operation: it raises, or has its effect [act]. *)
Definition io (op : io_op) (act : world → world) : M unit := λ w,
  match io_fails (io_clock w) op with
  | Some msg => (Raise (Exception msg), tick (log_io_error op w))
  | None => (Ok tt, act (tick w))
  end.

(** [os.makedirs(path, exist_ok=True)] *)
Definition makedirs (path : string) : M unit :=
  io (Makedirs path) (λ w, set_dirs ({[path]} ∪ dirs w) w).

(** [open(path, 'w')]: creates or truncates the file and returns a new file
    object. *)
Definition open_w (path : string) : M nat :=
  io (Open path)
     (λ w, set_handles (handles w ++ [{| f_name := path; f_closed := false |}])
             (set_fs (<[path := ""]> (fs w)) w));;
  h ← gets (λ w, length (handles w) - 1);
  mret h.

(** [f.write(data)]: appends to the file; [ValueError] on a closed file. *)
Definition write (h : nat) (data : string) : M unit :=
  o ← gets (λ w, handles w !! h);
  match o with
  | Some f =>
      if f_closed f then raise (Exception "I/O operation on closed file.")
      else io (Write (f_name f) data)
              (λ w, set_fs (fs_append (f_name f) data (fs w)) w)
  | None => raise (Exception "I/O operation on closed file.")
  end.

(** [f.close()]: no effect on a closed file; otherwise the file object is
    closed even when flushing it raises. *)
Definition close (h : nat) : M unit :=
  o ← gets (λ w, handles w !! h);
  match o with
  | Some f =>
      if f_closed f then mret tt
      else
        modify (λ w, set_handles
                       (<[h := {| f_name := f_name f; f_closed := true |}]>
                          (handles w)) w);;
        io (Close (f_name f)) (λ w, w)
  | None => mret tt
  end.

(** *** [process_sentences] *)

(** [temp1]: the words of all sentences of [orig] (lines 51-54). *)
Definition all_words (o : Document) : list Word :=
  concat (map words (sentences o)).

Definition file_name_of (t : string) : string := replace_char ":"%char "_"%char t.

Definition out_dir (file_name : string) : string :=
  path_join "out" [file_name].
Definition file_path (file_name : string) : string :=
  path_join "out" [file_name; file_name].

(** [" ".join(["S"] + [token.text for token in temp1]) + "\n"] *)
Definition source_line (temp1 : list Word) : string :=
  str_join " " ("S" :: map text temp1) +:+ nl.

(** The body of [for edit in edits] (lines 62-75). *)
Definition write_edit (temp1 : list Word) (cor_id : nat) (edit : Edit)
  : M unit :=
  modify (λ w, set_error_count (counter_incr (error_count w) (type edit)) w);;
  let file_name := file_name_of (type edit) in
  present ← gets (λ w, dict_has (out_files w) file_name);
  (if negb present then
     makedirs (out_dir file_name);;
     let file_path := file_path file_name in
     f0 ← open_w (file_path +:+ ".m2");
     f1 ← open_w (file_path +:+ ".src");
     f2 ← open_w (file_path +:+ ".trg");
     modify (λ w, set_out_files
                    (dict_set (out_files w) file_name (f0, f1, f2)) w)
   else mret tt);;
  o ← gets (λ w, dict_get (out_files w) file_name);
  match o with
  | None => raise (Exception file_name)          (* [KeyError] *)
  | Some (outfile0, outfile1, outfile2) =>
      write outfile0 (source_line temp1);;
      write outfile0 (to_m2 edit cor_id +:+ nl);;
      write outfile0 nl;;
      let '(src, trg) := to_srctrg edit in
      write outfile1 (src +:+ nl);;
      write outfile2 (trg +:+ nl)
  end.

(** The body of [for cor_id, cor in enumerate(cors)] (lines 59-77). *)
Definition process_cor (temp1 : list Word) (o : Document) (args : Args)
    (cor_id : nat) (c : Document) : M unit :=
  try_except
    (edits ← call (annotate annotator o c (lev args) (merge args));
     for_each edits (write_edit temp1 cor_id))
    (λ e, print ("Failed to align texts: " +:+ str_of_exn e)).

Definition process_sentences (o : Document) (cors : list Document)
    (args : Args) : M unit :=
  let temp1 := all_words o in
  for_each (imap pair cors) (λ ic, process_cor temp1 o args ic.1 ic.2).

(** *** [main] *)

(** [tuple(annotator.parse(line, args.tok) for line in lines)]: the lines
    are parsed in order and the first failure propagates. *)
Fixpoint parse_all (tokenise : bool) (lines : list string)
  : result (list Document) :=
  match lines with
  | [] => Ok []
  | line :: lines' =>
      match parse annotator line tokenise with
      | Raise e => Raise e
      | Ok d =>
          match parse_all tokenise lines' with
          | Raise e => Raise e
          | Ok ds => Ok (d :: ds)
          end
      end
  end.

(** The body of [for lines in zip( *files)] (lines 33-37). *)
Definition process_lines (args : Args) (lines : list string) : M unit :=
  try_except
    (docs ← call (parse_all (tok args) lines);
     match docs with
     | d :: ds => process_sentences d ds args
     | [] => raise (Exception "tuple index out of range")
     end)
    (λ e, print ("Failed to process line: " +:+ str_of_exn e)).

(** [zip( *files)] for [files = [orig_file] + cor_files]: one group per
    line number, up to the end of the shortest file. *)
Fixpoint zip_files (orig_lines : list string) (cor_lines : list (list string))
  : list (list string) :=
  match orig_lines with
  | [] => []
  | l :: orig_lines' =>
      match mapM head cor_lines with
      | Some ls => (l :: ls) :: zip_files orig_lines' (map tail cor_lines)
      | None => []
      end
  end.

(** The [finally] clause (lines 39-40). *)
Definition close_out_files : M unit :=
  out ← gets out_files;
  for_each out (λ kv,
    let '(f0, f1, f2) := kv.2 in close f0;; close f1;; close f2).

(** Lines 43-45.  [with open(...) as error_file] closes the file on every
    way out of its body. *)
Definition save_error_counts : M unit :=
  error_file ← open_w "error_file";
  try_finally
    (counts ← gets error_count;
     for_each counts (λ kv, write error_file (kv.1 +:+ tab +:+ pretty kv.2)))
    (close error_file).

(** [main], given the lines of the input files ([args.orig] and
    [args.cor], already opened).  The definition starts where the lines
    have been read: [parse_args] (line 16), [Annotator()] (line 19), opening
    the input files (line 27) and reading and decoding their lines in the
    [for] statement (line 32) are taken as done, and [print] as not
    failing.  What these raise in the source is outside the definition. *)
Definition main (args : Args) (orig_lines : list string)
    (cor_lines : list (list string)) : M unit :=
  print "Loading resources...";;
  modify (set_error_count []);;
  print "Processing parallel files...";;
  modify (set_out_files []);;
  try_finally
    (for_each (zip_files orig_lines cor_lines) (process_lines args))
    close_out_files;;
  save_error_counts.

End Driver.

(** The three output files of an error type (line 67). *)
Definition m2_path (file_name : string) : string :=
  file_path file_name +:+ ".m2".
Definition src_path (file_name : string) : string :=
  file_path file_name +:+ ".src".
Definition trg_path (file_name : string) : string :=
  file_path file_name +:+ ".trg".

(** An operation that opens or writes a per-type output file. *)
Definition per_type_io (op : io_op) : Prop :=
  ∃ t,
    match op with
    | Open p | Write p _ =>
        p ∈ [m2_path (file_name_of t); src_path (file_name_of t);
             trg_path (file_name_of t)]
    | _ => False
    end.

(** The policy "an I/O failure on a per-type output file is fatal to the
    run": whenever such an operation raised during a run of [main], [main]
    itself raises. *)
Definition io_failure_is_fatal : Prop :=
  ∀ io_fails annotator args orig_lines cor_lines w r w',
    io_errors w = [] →
    main io_fails annotator args orig_lines cor_lines w = (r, w') →
    (∃ n op, (n, op) ∈ io_errors w' ∧ per_type_io op) →
    ∃ e, r = Raise e.

End ParallelToM2.

(** ** What a run without I/O failures writes

    The edits a run hands to [write_edit], in order, as a function of the
    inputs, and the contents of the output files in terms of them. *)

Module RunSpec.
Import ParallelToM2.

(** An edit as the body of the edit loop receives it: [temp1], [cor_id]
    and [edit]. *)
Definition entry : Type := list Word * nat * Edit.

Definition entry_type (x : entry) : string := type x.2.
Definition entry_key (x : entry) : string := file_name_of (type x.2).

(** What lines 70-72, 74 and 75 write for an entry. *)
Definition m2_block (x : entry) : string :=
  source_line x.1.1 +:+ (to_m2 x.2 x.1.2 +:+ nl) +:+ nl.
Definition src_line (x : entry) : string := (to_srctrg x.2).1 +:+ nl.
Definition trg_line (x : entry) : string := (to_srctrg x.2).2 +:+ nl.

Definition str_concat (l : list string) : string := foldr String.append "" l.

(** The entries filed under the file name [k], rendered by [f] and
    concatenated. *)
Definition rendered (f : entry → string) (k : string) (xs : list entry)
  : string :=
  str_concat (map f (filter (λ x, entry_key x = k) xs)).

(** The counter after [c[t] += 1] for each label in turn. *)
Definition tally (labels : list string) : list (string * nat) :=
  foldl counter_incr [] labels.

(** What line 45 writes for the entries of the counter. *)
Definition histogram (counts : list (string * nat)) : string :=
  str_concat (map (λ kv, kv.1 +:+ tab +:+ pretty kv.2) counts).

Section Entries.
Variable annotator : Annotator.

(** The edits of one corrected text: none when [annotate] raises. *)
Definition cor_entries (o : Document) (args : Args) (cor_id : nat)
    (c : Document) : list entry :=
  match annotate annotator o c (lev args) (merge args) with
  | Ok edits => map (λ e, (all_words o, cor_id, e)) edits
  | Raise _ => []
  end.

Definition sentences_entries (o : Document) (cors : list Document)
    (args : Args) : list entry :=
  concat (map (λ ic, cor_entries o args ic.1 ic.2) (imap pair cors)).

(** The edits of one line group: none when a line fails to parse. *)
Definition lines_entries (args : Args) (lines : list string) : list entry :=
  match parse_all annotator (tok args) lines with
  | Ok (d :: ds) => sentences_entries d ds args
  | _ => []
  end.

Definition run_entries (args : Args) (orig_lines : list string)
    (cor_lines : list (list string)) : list entry :=
  concat (map (lines_entries args) (zip_files orig_lines cor_lines)).

End Entries.

(** The file system after the five writes of lines 70-75 for an entry. *)
Definition append_entry (x : entry) (files : gmap string string)
  : gmap string string :=
  let k := entry_key x in
  fs_append (trg_path k) (trg_line x)
    (fs_append (src_path k) (src_line x)
       (fs_append (m2_path k) nl
          (fs_append (m2_path k) (to_m2 x.2 x.1.2 +:+ nl)
             (fs_append (m2_path k) (source_line x.1.1) files)))).

(** What the run has written so far to the file [p] of the file name [k]:
    nothing before the file is opened (which creates or truncates it). *)
Definition written_so_far (w : world) (k p : string) : string :=
  if dict_has (out_files w) k then default "" (fs w !! p) else "".

(** The state of the driver after the entries [xs] have been written, in a
    run that started with [n0] file objects in existence: the counter is the
    tally of the types; a file name has its files open exactly when an entry
    is filed under it; the files of a file name hold what was written for
    its entries; and every file object created since the start is one of the
    files of a file name. *)
Record consistent (n0 : nat) (xs : list entry) (w : world) : Prop := {
  cons_count : error_count w = tally (map entry_type xs);
  cons_keys : ∀ k, dict_has (out_files w) k = true ↔ k ∈ map entry_key xs;
  cons_files : ∀ k f0 f1 f2,
    dict_get (out_files w) k = Some (f0, f1, f2) →
    handles w !! f0 = Some {| f_name := m2_path k; f_closed := false |}
    ∧ handles w !! f1 = Some {| f_name := src_path k; f_closed := false |}
    ∧ handles w !! f2 = Some {| f_name := trg_path k; f_closed := false |}
    ∧ fs w !! m2_path k = Some (rendered m2_block k xs)
    ∧ fs w !! src_path k = Some (rendered src_line k xs)
    ∧ fs w !! trg_path k = Some (rendered trg_line k xs)
    ∧ out_dir k ∈ dirs w;
  cons_registered : ∀ i, n0 ≤ i → i < length (handles w) →
    ∃ k f0 f1 f2,
      dict_get (out_files w) k = Some (f0, f1, f2)
      ∧ (i = f0 ∨ i = f1 ∨ i = f2)
}.

(** What remains true of the outputs once the files are closed. *)
Definition outputs_of (xs : list entry) (w : world) : Prop :=
  error_count w = tally (map entry_type xs)
  ∧ ∀ k, k ∈ map entry_key xs →
      out_dir k ∈ dirs w
      ∧ fs w !! m2_path k = Some (rendered m2_block k xs)
      ∧ fs w !! src_path k = Some (rendered src_line k xs)
      ∧ fs w !! trg_path k = Some (rendered trg_line k xs).

(** Two states with the same counter, file map, files and directories. *)
Definition same_outputs (w w' : world) : Prop :=
  error_count w' = error_count w ∧ out_files w' = out_files w
  ∧ fs w' = fs w ∧ dirs w' = dirs w.

(** The file object of index [i] exists and is closed. *)
Definition closed_in (w : world) (i : nat) : Prop :=
  ∃ f, handles w !! i = Some f ∧ f_closed f = true.

(** The last character of a string. *)
Fixpoint str_last (s : string) : option ascii :=
  match s with
  | "" => None
  | String c "" => Some c
  | String _ s' => str_last s'
  end.

End RunSpec.

(** ** Concrete runs

    An environment, an annotator and inputs on which the driver is run in
    the examples below. *)

Module Samples.
Import ParallelToM2.

(** The world before the run: nothing on disk, nothing printed. *)
Definition empty_world : world := World [] [] ∅ ∅ [] [] 0 [].

(** An environment in which no operation fails. *)
Definition no_failures : nat → io_op → option string := λ _ _, None.

(** An environment in which one path cannot be opened for writing. *)
Definition cannot_open (bad : string) (msg : string)
  : nat → io_op → option string :=
  λ _ op,
    match op with
    | Open p => if bool_decide (p = bad) then Some msg else None
    | _ => None
    end.

(** A stand-in annotator.  [parse] splits a line at white space and fails
    on a line without words; [annotate] reads one edit per word of the
    corrected line, whose error type is that word. *)
Definition toy_parse (line : string) (_ : bool) : result Document :=
  match String.words line with
  | [] => Raise (Exception "nothing to parse")
  | ws => Ok {| sentences := [ {| words := map Build_Word ws |} ] |}
  end.

Definition toy_edit (o c : Document) (t : string) : Edit :=
  {| type := t;
     to_m2 := λ cor_id,
       "A 0 1|||" +:+ t +:+ "|||x|||REQUIRED|||-NONE-|||" +:+ pretty cor_id;
     to_srctrg := (str_join " " (map text (all_words o)),
                   str_join " " (map text (all_words c))) |}.

Definition toy_annotate (o c : Document) (_ : bool) (_ : string)
  : result (list Edit) :=
  Ok (map (toy_edit o c) (map text (all_words c))).

Definition toy : Annotator :=
  {| parse := toy_parse; annotate := toy_annotate |}.

Definition toy_args : Args :=
  {| orig := "orig.txt"; cor := ["cor.txt"]; tok := false; lev := false;
     merge := "rules" |}.

(** A run over one line group with two edits, of types R:VERB and M:DET,
    in which nothing fails. *)
Definition two_labels_run : result unit * world :=
  main no_failures toy toy_args ["a b" +:+ nl] [["R:VERB M:DET" +:+ nl]]
       empty_world.

(** A run over two line groups in which out/R_VERB/R_VERB.m2 cannot be
    opened. *)
Definition m2_denied : nat → io_op → option string :=
  cannot_open "out/R_VERB/R_VERB.m2" "Permission denied".
Definition m2_denied_run : result unit * world :=
  main m2_denied toy toy_args
       ["a b" +:+ nl; "c" +:+ nl] [["R:VERB M:DET" +:+ nl; "M:DET" +:+ nl]]
       empty_world.

(** A run over one line group with one edit in which out/R_VERB/R_VERB.src
    is a directory, so that it cannot be opened for writing. *)
Definition src_is_a_directory : nat → io_op → option string :=
  cannot_open "out/R_VERB/R_VERB.src" "Is a directory".
Definition src_is_a_directory_run : result unit * world :=
  main src_is_a_directory toy toy_args ["a b" +:+ nl] [["R:VERB" +:+ nl]]
       empty_world.

(** The same run in an environment where closing out/R_VERB/R_VERB.m2
    fails (its buffered data cannot be flushed). *)
Definition m2_close_fails : nat → io_op → option string :=
  λ _ op,
    match op with
    | Close p =>
        if bool_decide (p = "out/R_VERB/R_VERB.m2")
        then Some "No space left on device" else None
    | _ => None
    end.
Definition m2_close_fails_run : result unit * world :=
  main m2_close_fails toy toy_args ["a b" +:+ nl] [["R:VERB" +:+ nl]]
       empty_world.

(** The documents of the line group ["a b"] / ["R:VERB M:DET"]. *)
Definition doc_a_b : Document :=
  {| sentences := [ {| words := [Build_Word "a"; Build_Word "b"] |} ] |}.
Definition doc_verb_det : Document :=
  {| sentences :=
       [ {| words := [Build_Word "R:VERB"; Build_Word "M:DET"] |} ] |}.

End Samples.

(** ** Further notions about the stemmer *)

Module StemmerSpec.
Import HindiStemmer.

(** The code points the suffixes of the table end with. *)
Definition suffix_finals : list N :=
  [2366; 2367; 2368; 2369; 2370; 2375; 2379; 2305; 2306; 2312; 2319; 2323;
   2352]%N.

(** [t] and [suf] agree on their last [min (len t) (len suf)] code points:
    what a word ending with [t] needs to end with [suf] as well. *)
Definition tails_agree (t suf : str) : bool :=
  bool_decide (drop (length suf - length t) suf
               = drop (length t - length suf) t).

End StemmerSpec.

(** ** Further notions about the driver *)

Module DriverSpec.
Import ParallelToM2 RunSpec.

(** The distinct elements of a list, in the order of their first
    occurrence. *)
Fixpoint first_occurrences (l : list string) : list string :=
  match l with
  | [] => []
  | x :: l' => x :: filter (λ y, y ≠ x) (first_occurrences l')
  end.

(** [c in s] for a character [c]. *)
Fixpoint str_mem (c : ascii) (s : string) : bool :=
  match s with
  | "" => false
  | String c' s' => bool_decide (c' = c) || str_mem c s'
  end.

(** Triples for computations that may raise: from a state satisfying [P],
    [m] ends in a state satisfying [Q] when it returns and [E] when it
    raises. *)
Definition hoare {A} (P : world → Prop) (m : M A) (Q : A → world → Prop)
    (E : exn → world → Prop) : Prop :=
  ∀ w, P w →
    match m w with
    | (Ok a, w') => Q a w'
    | (Raise e, w') => E e w'
    end.

(** A property of the state that the file system, the directories, the
    file objects, the clock and the record of failures do not affect. *)
Definition io_independent (P : world → Prop) : Prop :=
  ∀ w, P w →
    P (tick w) ∧ (∀ op, P (log_io_error op w)) ∧ (∀ f, P (set_fs f w))
    ∧ (∀ d, P (set_dirs d w)) ∧ (∀ h, P (set_handles h w)).

(** The file object of index [h] exists and is open. *)
Definition open_at (w : world) (h : nat) : Prop :=
  ∃ f, handles w !! h = Some f ∧ f_closed f = false.

(** Every file recorded in [out_files] is an open file object. *)
Definition handles_ok (w : world) : Prop :=
  ∀ k f0 f1 f2,
    dict_get (out_files w) k = Some (f0, f1, f2) →
    open_at w f0 ∧ open_at w f1 ∧ open_at w f2.

(** The exception [x] is the error with which the environment failed the
    operation attempted last. *)
Definition raised_by_env (env : nat → io_op → option string) (x : exn)
    (w : world) : Prop :=
  ∃ n op,
    last (io_errors w) = Some (n, op) ∧ io_clock w = S n
    ∧ env n op = Some (str_of_exn x).









(** An environment in which [error_file] cannot be opened for writing. *)
Definition error_file_denied : nat → io_op → option string :=
  Samples.cannot_open "error_file" "Permission denied".



(** "For each error-type label observed, the driver produces the three
    files under a directory named after the label", of every run: whatever
    failed, every label in the counter has its directory and its files. *)
Definition every_label_has_its_files : Prop :=
  ∀ io_fails annotator args orig_lines cor_lines w r w',
    main io_fails annotator args orig_lines cor_lines w = (r, w') →
    ∀ label, dict_has (error_count w') label = true →
      let k := file_name_of label in
      out_dir k ∈ dirs w'
      ∧ is_Some (fs w' !! m2_path k)
      ∧ is_Some (fs w' !! src_path k)
      ∧ is_Some (fs w' !! trg_path k).


(** "For every classified edit the driver increments the tally and appends
    one block and one line to each of the other two files", of the loop
    body in every environment. *)
Definition every_edit_is_written : Prop :=
  ∀ io_fails n0 xs w temp1 cor_id edit r w',
    consistent n0 xs w →
    write_edit io_fails temp1 cor_id edit w = (r, w') →
    let k := file_name_of (type edit) in
    counter_get (error_count w') (type edit)
    = counter_get (error_count w) (type edit) + 1
    ∧ fs w' !! m2_path k
      = Some (written_so_far w k (m2_path k)
              +:+ (source_line temp1 +:+ (to_m2 edit cor_id +:+ nl) +:+ nl))
    ∧ fs w' !! src_path k
      = Some (written_so_far w k (src_path k) +:+ ((to_srctrg edit).1 +:+ nl))
    ∧ fs w' !! trg_path k
      = Some (written_so_far w k (trg_path k) +:+ ((to_srctrg edit).2 +:+ nl)).

(** The state in which [main] enters its loop (lines 17-28): the two
    banners printed, the counter and [out_files] empty. *)
Definition loop_entry (w : world) : world :=
  set_out_files []
    (set_stdout
       (stdout w ++ ["Loading resources..."; "Processing parallel files..."])
       (set_error_count [] w)).

Section Log.
Variable annotator : Annotator.

(** What a corrected text, a line group and a run print when no file
    operation fails: one line for a corrected text whose annotation raises,
    and one line for a line group that fails to parse. *)
Definition cor_log (o : Document) (args : Args) (c : Document)
  : list string :=
  match annotate annotator o c (lev args) (merge args) with
  | Raise e => ["Failed to align texts: " +:+ str_of_exn e]
  | Ok _ => []
  end.

Definition lines_log (args : Args) (lines : list string) : list string :=
  match parse_all annotator (tok args) lines with
  | Raise e => ["Failed to process line: " +:+ str_of_exn e]
  | Ok [] => ["Failed to process line: tuple index out of range"]
  | Ok (d :: ds) => concat (map (cor_log d args) ds)
  end.

Definition run_log (args : Args) (orig_lines : list string)
    (cor_lines : list (list string)) : list string :=
  concat (map (lines_log args) (zip_files orig_lines cor_lines)).

End Log.

(** The operations of the [finally] clause and of the histogram file:
    closing a file, and opening or writing [error_file]. *)
Definition cleanup_or_histogram (op : io_op) : Prop :=
  match op with
  | Close _ => True
  | Open p | Write p _ => p = "error_file"
  | Makedirs _ => False
  end.

End DriverSpec.


(** ** Properties of the stemmer *)

Section StemmerFacts.
Import HindiStemmer.

Lemma endswith_spec (word suf : str) :
  endswith word suf = true ↔ ∃ pre, word = pre ++ suf.
Proof.
  unfold endswith. rewrite andb_true_iff, !bool_decide_eq_true. split.
  - intros [_ Hd]. exists (take (length word - length suf) word).
    rewrite <- (take_drop (length word - length suf) word) at 1.
    by rewrite Hd.
  - intros [pre ->]. rewrite length_app. split; [lia|].
    replace (length pre + length suf - length suf) with (length pre) by lia.
    by rewrite drop_app_length.
Qed.

Lemma slice_neg_app (pre suf : str) :
  slice_neg (pre ++ suf) (length suf) = pre.
Proof.
  unfold slice_neg. rewrite length_app.
  replace (length pre + length suf - length suf) with (length pre) by lia.
  by rewrite take_app_length.
Qed.

Lemma slice_neg_length (word : str) (L : nat) :
  length (slice_neg word L) = length word - L.
Proof. unfold slice_neg. rewrite length_take. lia. Qed.

Lemma slice_neg_prefix (word : str) (L : nat) : slice_neg word L `prefix_of` word.
Proof. exists (drop (length word - L) word). symmetry. apply take_drop. Qed.

Lemma dict_get_elem {V} (d : list (nat * V)) (k : nat) (v : V) :
  dict_get d k = Some v → (k, v) ∈ d.
Proof.
  induction d as [|[k' v'] d IH]; simpl; [done|].
  case_bool_decide; intros Hget; simplify_eq; [left | right; auto].
Qed.

(** Every length the loop visits is a key of the table. *)
Lemma suffixes_has_lengths (L : nat) :
  L ∈ lengths → dict_get suffixes L = Some (suffix_list L).
Proof.
  unfold lengths. rewrite !elem_of_cons, elem_of_nil.
  intros [->|[->|[->|[->|[->|[]]]]]]; reflexivity.
Qed.

(** Every suffix filed under the key [L] has exactly [L] code points. *)
Lemma suffixes_lengths_ok (L : nat) (suf : str) :
  suf ∈ suffix_list L → length suf = L.
Proof.
  assert (Hall : Forall (λ p, Forall (λ s : str, length s = p.1) p.2) suffixes)
    by (unfold suffixes; repeat constructor).
  unfold suffix_list. destruct (dict_get suffixes L) as [sufs|] eqn:Hget.
  - apply dict_get_elem in Hget. rewrite Forall_forall in Hall.
    specialize (Hall _ Hget). rewrite Forall_forall in Hall. apply Hall.
  - simpl. by rewrite elem_of_nil.
Qed.

Lemma scan_spec (word : str) (L : nat) (sufs : list str) :
  scan word L sufs
  = if existsb (endswith word) sufs then Some (slice_neg word L) else None.
Proof.
  induction sufs as [|suf sufs IH]; simpl; [done|].
  destruct (endswith word suf); simpl; [done | apply IH].
Qed.

(** The nested loops compute a first-match search over the visited lengths. *)
Lemma stem_from_find (word : str) (Ls : list nat) :
  Ls ⊆ lengths →
  stem_from word Ls
  = Some (match find (applicable word) Ls with
          | Some L => slice_neg word L
          | None => word
          end).
Proof.
  induction Ls as [|L Ls IH]; intros Hsub; cbn [stem_from find]; [done|].
  assert (HL : L ∈ lengths) by (apply Hsub; left).
  assert (HLs : Ls ⊆ lengths) by (intros x Hx; apply Hsub; by right).
  unfold applicable at 1. case_bool_decide; cbn [andb].
  - rewrite (suffixes_has_lengths L HL). cbn [mbind option_bind].
    rewrite scan_spec.
    destruct (existsb (endswith word) (suffix_list L)); [done | by apply IH].
  - by apply IH.
Qed.

Lemma stem_find (word : str) :
  stem word
  = Some (match find (applicable word) lengths with
          | Some L => slice_neg word L
          | None => word
          end).
Proof. by apply stem_from_find. Qed.

Lemma find_lengths_some (word : str) (L : nat) :
  find (applicable word) lengths = Some L →
  L ∈ lengths ∧ applicable word L = true.
Proof.
  intros H. destruct (find_some _ _ H) as [Hin Happ].
  split; [by apply list_elem_of_In | done].
Qed.

Lemma applicable_spec (word : str) (L : nat) :
  applicable word L = true →
  L + 1 < length word
  ∧ ∃ suf, suf ∈ suffix_list L ∧ length suf = L ∧ word = slice_neg word L ++ suf.
Proof.
  unfold applicable. rewrite andb_true_iff, bool_decide_eq_true, existsb_exists.
  intros [Hlen (suf & Hin & Hends)]. split; [done|].
  apply list_elem_of_In in Hin. apply endswith_spec in Hends as [pre ->].
  exists suf. pose proof (suffixes_lengths_ok _ _ Hin) as Hl.
  split_and!; [done..|]. by rewrite <- Hl, slice_neg_app.
Qed.

(** C4.  The stemmer checks candidate suffixes longest-first.  The lengths
    are tried in the fixed decreasing order 5, 4, 3, 2, 1; the first length
    of that order whose guard holds and whose suffix list contains a suffix
    of the word determines the result (the word unchanged when there is
    none).  Consequently, whenever some length [L] is applicable, the length
    actually stripped is an applicable [L' >= L] above which no length is
    applicable. *)
Theorem stem_longest_first (word : str) :
  stem word
  = Some (match find (applicable word) [5; 4; 3; 2; 1] with
          | Some L => slice_neg word L
          | None => word
          end)
  ∧ ∀ L, L ∈ [5; 4; 3; 2; 1] → applicable word L = true →
      ∃ L', L ≤ L'
            ∧ applicable word L' = true
            ∧ (∀ L'', L'' ∈ [5; 4; 3; 2; 1] → L' < L'' →
                      applicable word L'' = false)
            ∧ stem word = Some (slice_neg word L').
Proof.
  split; [apply stem_find|].
  intros L HL Happ. rewrite stem_find. unfold lengths. cbn [find].
  assert (Hcases : ∀ L'', L'' ∈ [5; 4; 3; 2; 1] →
            L'' = 5 ∨ L'' = 4 ∨ L'' = 3 ∨ L'' = 2 ∨ L'' = 1).
  { intros L''. rewrite !elem_of_cons, elem_of_nil. tauto. }
  apply Hcases in HL.
  destruct (applicable word 5) eqn:H5;
    [exists 5 | destruct (applicable word 4) eqn:H4;
    [exists 4 | destruct (applicable word 3) eqn:H3;
    [exists 3 | destruct (applicable word 2) eqn:H2;
    [exists 2 | destruct (applicable word 1) eqn:H1;
    [exists 1 | exfalso; destruct HL as [->|[->|[->|[->| ->]]]];
                congruence]]]]];
    (split_and!;
     [ destruct HL as [->|[->|[->|[->| ->]]]]; first [lia | congruence]
     | done
     | intros L'' HL'' Hlt; apply Hcases in HL'';
       destruct HL'' as [->|[->|[->|[->| ->]]]]; first [lia | done]
     | done ]).
Qed.

(** C5.  The minimum-remaining-length guard.  [stem] always returns; its
    result is the word itself or the word without its last [L] code points
    for a length [L] of the table with [len(word) > L + 1]; a word of at
    most 2 code points is returned unchanged; and whenever something is
    stripped, at least 2 code points remain. *)
Theorem stem_min_remaining_guard (word : str) :
  (∃ r, stem word = Some r
        ∧ (r = word
           ∨ ∃ L, L ∈ [5; 4; 3; 2; 1] ∧ L + 1 < length word
                  ∧ r = slice_neg word L ∧ length r + L = length word))
  ∧ (length word ≤ 2 → stem word = Some word)
  ∧ (∀ r, stem word = Some r → r ≠ word → 2 ≤ length r).
Proof.
  rewrite stem_find.
  destruct (find (applicable word) lengths) as [L|] eqn:Hfind.
  - apply find_lengths_some in Hfind as [HL Happ].
    apply applicable_spec in Happ as [Hlen _].
    pose proof (slice_neg_length word L) as Hsl.
    assert (1 ≤ L).
    { revert HL. unfold lengths. rewrite !elem_of_cons, elem_of_nil. lia. }
    split_and!.
    + eexists; split; [done|]. right. exists L. split_and!; [done..|lia].
    + lia.
    + intros r [= <-] _. lia.
  - split_and!; [eexists; split; [done | by left] | done |].
    by intros r [= <-] Hne.
Qed.

(** C9.  [stem word] is a prefix of [word]: either the word comes back
    unchanged, or the removed trailing part is an entry of the suffix table
    filed under its own length [L], and appending it to the result gives the
    word back. *)
Theorem stem_prefix_of_word (word : str) :
  ∃ r, stem word = Some r
       ∧ r `prefix_of` word
       ∧ (r = word
          ∨ ∃ L sufs suf, (L, sufs) ∈ suffixes ∧ suf ∈ sufs
                          ∧ length suf = L ∧ length r + L = length word
                          ∧ word = r ++ suf).
Proof.
  rewrite stem_find.
  destruct (find (applicable word) lengths) as [L|] eqn:Hfind.
  - apply find_lengths_some in Hfind as [HL Happ].
    apply applicable_spec in Happ as (Hlen & suf & Hin & Hsuf & Hword).
    eexists; split_and!; [done | apply slice_neg_prefix |].
    right. exists L, (suffix_list L), suf. split_and!; [|done..| |done].
    + by apply dict_get_elem, suffixes_has_lengths.
    + rewrite slice_neg_length. lia.
  - eexists; split_and!; [done | done | by left].
Qed.

Lemma stem_longest_first_witness :
  ∃ L', 1 ≤ L'
        ∧ applicable karata L' = true
        ∧ (∀ L'', L'' ∈ [5; 4; 3; 2; 1] → L' < L'' →
                  applicable karata L'' = false)
        ∧ stem karata = Some (slice_neg karata L').
Proof.
  apply (proj2 (stem_longest_first karata) 1).
  - do 4 right. left.
  - reflexivity.
Defined.

Lemma stem_min_remaining_guard_witness : stem kara = Some kara.
Proof.
  apply (proj1 (proj2 (stem_min_remaining_guard kara))). simpl. lia.
Defined.

End StemmerFacts.

(** ** More about the stemmer *)

Section StemmerMore.
Import HindiStemmer StemmerSpec.

(** An applicable length makes the search succeed, at that length or a
    longer one. *)
Lemma find_lengths_max (word : str) (L : nat) :
  L ∈ lengths → applicable word L = true →
  ∃ L', find (applicable word) lengths = Some L' ∧ L ≤ L' ∧ L' ∈ lengths.
Proof.
  unfold lengths. rewrite !elem_of_cons, elem_of_nil. cbn [find].
  intros HL Happ.
  destruct (applicable word 5) eqn:H5;
    [exists 5 | destruct (applicable word 4) eqn:H4;
    [exists 4 | destruct (applicable word 3) eqn:H3;
    [exists 3 | destruct (applicable word 2) eqn:H2;
    [exists 2 | destruct (applicable word 1) eqn:H1;
    [exists 1 | exfalso; destruct HL as [->|[->|[->|[->|[->|[]]]]]];
                congruence]]]]];
    (split_and!;
     [ done
     | destruct HL as [->|[->|[->|[->|[->|[]]]]]]; first [lia | congruence]
     | rewrite !elem_of_cons; tauto ]).
Qed.

Lemma applicable_app (pre suf : str) (L : nat) :
  suf ∈ suffix_list L → 2 ≤ length pre → applicable (pre ++ suf) L = true.
Proof.
  intros Hsuf Hpre. pose proof (suffixes_lengths_ok _ _ Hsuf) as Hlen.
  unfold applicable. rewrite andb_true_iff, bool_decide_eq_true, existsb_exists.
  split; [rewrite length_app; lia|].
  exists suf. split; [by apply list_elem_of_In|].
  apply endswith_spec. by exists pre.
Qed.

Lemma slice_neg_app_ge (pre suf : str) (L : nat) :
  length suf ≤ L →
  slice_neg (pre ++ suf) L = take (length pre - (L - length suf)) pre.
Proof.
  intros HL. unfold slice_neg. rewrite length_app.
  replace (length pre + length suf - L)
    with (length pre - (L - length suf)) by lia.
  rewrite take_app_le by lia. done.
Qed.

(** X4.  Stemming undoes the appending of a table suffix, at least: for a
    base of at least 2 code points and a suffix filed under a length of the
    table, the stem of base ++ suffix is a prefix of the base; it is the base
    itself for the suffixes of length 5. *)
Theorem stem_strips_appended_suffix (pre suf : str) (L : nat) :
  L ∈ [5; 4; 3; 2; 1] → suf ∈ suffix_list L → 2 ≤ length pre →
  ∃ r, stem (pre ++ suf) = Some r
       ∧ r `prefix_of` pre
       ∧ (L = 5 → r = pre).
Proof.
  intros HL Hsuf Hpre. pose proof (suffixes_lengths_ok _ _ Hsuf) as Hlen.
  destruct (find_lengths_max (pre ++ suf) L HL (applicable_app _ _ _ Hsuf Hpre))
    as (L' & Hfind & Hge & HL').
  rewrite stem_find, Hfind. eexists. split; [done|].
  rewrite slice_neg_app_ge by lia. split.
  - apply prefix_take.
  - intros ->. assert (L' = 5) as ->.
    { revert HL'. unfold lengths. rewrite !elem_of_cons, elem_of_nil. lia. }
    rewrite Hlen. replace (length pre - (5 - 5)) with (length pre) by lia.
    apply firstn_all.
Qed.

Lemma suffix_last_in_finals (L : nat) (suf : str) :
  suf ∈ suffix_list L → ∃ c, last suf = Some c ∧ c ∈ suffix_finals.
Proof.
  assert (Hall : Forall (λ p, Forall (λ s : str,
                   ∃ c, last s = Some c ∧ c ∈ suffix_finals) p.2) suffixes).
  { unfold suffixes, suffix_finals.
    repeat (constructor; cbn [snd]); eexists; (split; [reflexivity|]);
      rewrite !elem_of_cons; tauto. }
  unfold suffix_list. destruct (dict_get suffixes L) as [sufs|] eqn:Hget.
  - apply dict_get_elem in Hget. rewrite Forall_forall in Hall.
    specialize (Hall _ Hget). rewrite Forall_forall in Hall. apply Hall.
  - cbn. by rewrite elem_of_nil.
Qed.

(** X5.  A word is left unchanged unless its last code point is one of the
    13 code points the suffixes of the table end with. *)
Theorem stem_unchanged_unless_suffix_final (word : str) :
  (∀ c, last word = Some c → c ∉ suffix_finals) →
  stem word = Some word.
Proof.
  intros Hlast. rewrite stem_find.
  destruct (find (applicable word) lengths) as [L|] eqn:Hfind; [|done].
  exfalso. apply find_lengths_some in Hfind as [HL Happ].
  apply applicable_spec in Happ as (_ & suf & Hsuf & _ & Hword).
  destruct (suffix_last_in_finals _ _ Hsuf) as (c & Hc & Hfin).
  apply (Hlast c); [|done].
  rewrite Hword. destruct suf as [|x suf] using rev_ind; [done|].
  rewrite last_snoc in Hc. rewrite app_assoc, last_snoc. done.
Qed.

Lemma endswith_app_tail (pre t suf : str) :
  endswith (pre ++ t) suf = true → tails_agree t suf = true.
Proof.
  rewrite endswith_spec. intros [p Heq].
  unfold tails_agree. apply bool_decide_eq_true. symmetry.
  assert (Heq' : (pre ++ take (length t - length suf) t)
                   ++ drop (length t - length suf) t
                 = (p ++ take (length suf - length t) suf)
                   ++ drop (length suf - length t) suf)
    by (by rewrite <- !app_assoc, !take_drop).
  apply app_inj_2 in Heq'; [by destruct Heq'|].
  rewrite !length_drop. lia.
Qed.

(** No suffix of a list applies to a word ending with [t] when none agrees
    with [t] on its tail. *)
Lemma no_suffix_by_tail (t : str) (L : nat) :
  forallb (λ suf, negb (tails_agree t suf)) (suffix_list L) = true →
  ∀ pre, applicable (pre ++ t) L = false.
Proof.
  intros Hnone pre. unfold applicable. apply andb_false_iff. right.
  apply not_true_is_false. rewrite existsb_exists. intros (suf & Hin & Hends).
  rewrite forallb_forall in Hnone. specialize (Hnone suf Hin).
  apply endswith_app_tail in Hends. rewrite Hends in Hnone. done.
Qed.

(** X6.  Stemming is not idempotent: one pass can uncover another suffix.
    For every base of at least 2 code points, the stem of base ++ "करता" is
    base ++ "कर", and stemming that again strips "कर" as well (or more): the
    second stem is a prefix of the base. *)
Theorem stem_twice_strips_more (pre : str) :
  2 ≤ length pre →
  stem (pre ++ karata) = Some (pre ++ kara)
  ∧ ∃ r, stem (pre ++ kara) = Some r ∧ r `prefix_of` pre.
Proof.
  intros Hpre. split.
  - rewrite stem_find. unfold lengths. cbn [find].
    rewrite !(no_suffix_by_tail karata) by reflexivity.
    replace (pre ++ karata) with ((pre ++ kara) ++ [2340; 2366]%N)
      by (by rewrite <- app_assoc).
    rewrite (applicable_app (pre ++ kara) [2340; 2366]%N 2);
      [ | apply (bool_decide_unpack _); by vm_compute
        | rewrite length_app; lia ].
    f_equal. apply (slice_neg_app (pre ++ kara) [2340; 2366]%N).
  - destruct (find_lengths_max (pre ++ kara) 2) as (L' & Hfind & Hge & _).
    + unfold lengths. rewrite !elem_of_cons. tauto.
    + apply applicable_app; [|done]. unfold suffix_list. cbn. by left.
    + rewrite stem_find, Hfind. eexists. split; [done|].
      rewrite slice_neg_app_ge by (cbn; lia). apply prefix_take.
Qed.

Lemma stem_strips_appended_suffix_witness :
  ∃ r, stem (kara ++ [2366; 2319; 2306; 2327; 2368]%N) = Some r
       ∧ r `prefix_of` kara
       ∧ (5 = 5 → r = kara).
Proof.
  apply (stem_strips_appended_suffix kara [2366; 2319; 2306; 2327; 2368]%N 5).
  - by left.
  - unfold suffix_list. cbn. by left.
  - cbn. lia.
Defined.

Lemma stem_unchanged_unless_suffix_final_witness :
  stem [2325; 2352; 2350]%N = Some [2325; 2352; 2350]%N.
Proof.
  apply stem_unchanged_unless_suffix_final.
  intros c [= <-]. unfold suffix_finals. rewrite !elem_of_cons, elem_of_nil.
  intros H. repeat (destruct H as [H|H]; [discriminate H|]). done.
Defined.

Lemma stem_twice_strips_more_witness :
  stem (kara ++ karata) = Some (kara ++ kara)
  ∧ ∃ r, stem (kara ++ kara) = Some r ∧ r `prefix_of` kara.
Proof. apply (stem_twice_strips_more kara). cbn. lia. Defined.

End StemmerMore.

(** ** Strings and paths *)

Section StringFacts.
Import ParallelToM2 RunSpec.

Lemma str_app_cons (c : ascii) (s t : string) :
  String c s +:+ t = String c (s +:+ t).
Proof. reflexivity. Qed.

Lemma str_app_nil_r (s : string) : s +:+ "" = s.
Proof. induction s; [done|]. rewrite str_app_cons. by f_equal. Qed.

Lemma str_app_assoc (s t u : string) : (s +:+ t) +:+ u = s +:+ t +:+ u.
Proof. induction s; [done|]. rewrite !str_app_cons. by f_equal. Qed.

Lemma str_length_app (s t : string) :
  String.length (s +:+ t) = String.length s + String.length t.
Proof.
  induction s as [|c s IH]; [done|].
  rewrite str_app_cons. cbn [String.length]. rewrite IH. lia.
Qed.

(** Two ways of cutting one string at the same position agree. *)
Lemma str_app_inv (s1 s2 t1 t2 : string) :
  s1 +:+ t1 = s2 +:+ t2 → String.length s1 = String.length s2 →
  s1 = s2 ∧ t1 = t2.
Proof.
  revert s2. induction s1 as [|c s1 IH]; intros [|c' s2];
    rewrite ?str_app_cons; cbn [String.length]; intros Heq Hlen; try done.
  injection Heq as -> Heq. destruct (IH s2) as [-> ->]; [done | lia | done].
Qed.

Lemma str_app_inv_r (s1 s2 t : string) : s1 +:+ t = s2 +:+ t → s1 = s2.
Proof.
  intros Heq. apply (str_app_inv s1 s2 t t Heq).
  apply (f_equal String.length) in Heq. rewrite !str_length_app in Heq. lia.
Qed.

Lemma str_last_app (s : string) (c : ascii) (t : string) :
  str_last (s +:+ String c t) = str_last (String c t).
Proof.
  induction s as [|c' s IH]; [done|].
  rewrite str_app_cons. cbn [str_last]. rewrite IH.
  destruct (s +:+ String c t) eqn:Heq; [by destruct s | done].
Qed.

Lemma str_concat_app (l1 l2 : list string) :
  str_concat (l1 ++ l2) = str_concat l1 +:+ str_concat l2.
Proof.
  induction l1 as [|x l1 IH]; [done|].
  change (str_concat ((x :: l1) ++ l2)) with (x +:+ str_concat (l1 ++ l2)).
  change (str_concat (x :: l1)) with (x +:+ str_concat l1).
  by rewrite IH, str_app_assoc.
Qed.

Lemma str_concat_snoc (l : list string) (x : string) :
  str_concat (l ++ [x]) = str_concat l +:+ x.
Proof.
  rewrite str_concat_app. change (str_concat [x]) with (x +:+ "").
  by rewrite str_app_nil_r.
Qed.

Lemma ends_with_sep_app (s k : string) :
  k ≠ "" → ends_with_sep (s +:+ k) = ends_with_sep k.
Proof.
  intros Hk. induction s as [|c s IH]; [done|].
  rewrite str_app_cons. cbn [ends_with_sep].
  destruct (s +:+ k) eqn:Heq; [|done].
  destruct s; [by destruct k | done].
Qed.

(** [os.path.join("out", k)] and [os.path.join("out", k, k)] for a file
    name that is not empty and neither starts nor ends with ["/"]. *)
Lemma paths_inside_out (k : string) :
  k ≠ "" → starts_with_sep k = false → ends_with_sep k = false →
  path_join "out" [k] = "out/" +:+ k
  ∧ path_join "out" [k; k] = "out/" +:+ k +:+ "/" +:+ k.
Proof.
  intros Hk Hs He.
  assert (Hdir : path_join "out" [k] = "out/" +:+ k).
  { unfold path_join. cbn [foldl]. unfold path_join2. by rewrite Hs. }
  split; [done|]. unfold path_join in *. cbn [foldl] in *. rewrite Hdir.
  unfold path_join2. rewrite Hs, (ends_with_sep_app "out/" k Hk), He.
  rewrite bool_decide_eq_false_2 by done. cbn [orb].
  by rewrite str_app_assoc.
Qed.

(** The shape of [os.path.join("out", k, k)]. *)
Lemma file_path_cases (k : string) :
  (starts_with_sep k = true ∧ file_path k = k)
  ∨ (starts_with_sep k = false
     ∧ ∃ sep, (sep = "" ∨ sep = "/") ∧ file_path k = "out/" +:+ k +:+ sep +:+ k).
Proof.
  unfold file_path, path_join. cbn [foldl]. unfold path_join2.
  destruct (starts_with_sep k) eqn:Hk; [by left|]. right. split; [done|].
  cbn [bool_decide decide_rel orb]. 
  change (ends_with_sep "out") with false.
  replace (bool_decide ("out" = "")) with false by done. cbn [orb].
  change ("out" +:+ "/" +:+ k) with ("out/" +:+ k).
  replace (bool_decide ("out/" +:+ k = "")) with false by done. cbn [orb].
  destruct (ends_with_sep ("out/" +:+ k)).
  - exists "". split; [by left|]. by rewrite str_app_assoc.
  - exists "/". split; [by right|]. by rewrite str_app_assoc.
Qed.

Lemma file_path_inj (k k' : string) : file_path k = file_path k' → k = k'.
Proof.
  destruct (file_path_cases k) as [[Hs ->]|[Hs (sep & Hsep & ->)]];
    destruct (file_path_cases k') as [[Hs' ->]|[Hs' (sep' & Hsep' & ->)]].
  - done.
  - intros ->. done.
  - intros <-. done.
  - intros Heq. apply (inj (String.app "out/")) in Heq.
    apply (str_app_inv k k' _ _ Heq).
    apply (f_equal String.length) in Heq. rewrite !str_length_app in Heq.
    destruct Hsep as [-> | ->], Hsep' as [-> | ->]; simpl in Heq; lia.
Qed.

End StringFacts.

(** ** The primitives when no operation fails *)

Section NoFailures.
Import ParallelToM2 RunSpec Samples.

Lemma str_last_m2_path k : str_last (m2_path k) = Some "2"%char.
Proof. unfold m2_path. by rewrite str_last_app. Qed.
Lemma str_last_src_path k : str_last (src_path k) = Some "c"%char.
Proof. unfold src_path. by rewrite str_last_app. Qed.
Lemma str_last_trg_path k : str_last (trg_path k) = Some "g"%char.
Proof. unfold trg_path. by rewrite str_last_app. Qed.

Lemma m2_path_inj k k' : m2_path k = m2_path k' → k = k'.
Proof. intros H. by apply file_path_inj, (str_app_inv_r _ _ ".m2"). Qed.
Lemma src_path_inj k k' : src_path k = src_path k' → k = k'.
Proof. intros H. by apply file_path_inj, (str_app_inv_r _ _ ".src"). Qed.
Lemma trg_path_inj k k' : trg_path k = trg_path k' → k = k'.
Proof. intros H. by apply file_path_inj, (str_app_inv_r _ _ ".trg"). Qed.

Lemma fs_append_lookup_eq p data (files : gmap string string) :
  fs_append p data files !! p = Some (default "" (files !! p) +:+ data).
Proof. unfold fs_append. apply lookup_insert_eq. Qed.

Lemma fs_append_lookup_ne p q data (files : gmap string string) :
  p ≠ q → fs_append p data files !! q = files !! q.
Proof. intros. unfold fs_append. by apply lookup_insert_ne. Qed.

Lemma makedirs_ok p w :
  makedirs no_failures p w = (Ok tt, set_dirs ({[p]} ∪ dirs w) (tick w)).
Proof. reflexivity. Qed.

Lemma open_w_ok p w :
  open_w no_failures p w
  = (Ok (length (handles w)),
     set_handles (handles w ++ [{| f_name := p; f_closed := false |}])
                 (set_fs (<[p := ""]> (fs w)) (tick w))).
Proof.
  unfold open_w, mbind, M_bind, io, gets, mret, M_ret, no_failures.
  cbn [handles set_handles set_fs tick]. rewrite length_app. cbn [length].
  by replace (length (handles w) + 1 - 1) with (length (handles w)) by lia.
Qed.

Lemma write_ok h f data w :
  handles w !! h = Some f → f_closed f = false →
  write no_failures h data w
  = (Ok tt, set_fs (fs_append (f_name f) data (fs w)) (tick w)).
Proof.
  intros Hh Hopen. unfold write, mbind, M_bind, gets.
  by rewrite Hh, Hopen.
Qed.

End NoFailures.

(** ** Properties of the driver that hold in every environment *)

Section DriverControlFlow.
Import ParallelToM2.

Variable io_fails : nat → io_op → option string.
Variable annotator : Annotator.

Lemma bind_ok {A B} (m : M A) (k : A → M B) w a w' :
  m w = (Ok a, w') → (m ≫= k) w = k a w'.
Proof. unfold mbind, M_bind. by intros ->. Qed.

Lemma bind_raise {A B} (m : M A) (k : A → M B) w e w' :
  m w = (Raise e, w') → (m ≫= k) w = (Raise e, w').
Proof. unfold mbind, M_bind. by intros ->. Qed.

Lemma for_each_cons {A} (x : A) (l : list A) (body : A → M unit) w :
  for_each (x :: l) body w
  = match body x w with
    | (Ok _, w') => for_each l body w'
    | (Raise e, w') => (Raise e, w')
    end.
Proof. reflexivity. Qed.

Lemma for_each_app {A} (l1 l2 : list A) (body : A → M unit) w :
  for_each (l1 ++ l2) body w
  = match for_each l1 body w with
    | (Ok _, w') => for_each l2 body w'
    | (Raise e, w') => (Raise e, w')
    end.
Proof.
  revert w. induction l1 as [|x l1 IH]; intros w; [done|].
  rewrite <- app_comm_cons, !for_each_cons.
  destruct (body x w) as [[[]|e] w']; [apply IH | done].
Qed.

(** A loop whose body never raises never raises. *)
Lemma for_each_total {A} (l : list A) (body : A → M unit) :
  (∀ x w, ∃ w', body x w = (Ok tt, w')) →
  ∀ w, ∃ w', for_each l body w = (Ok tt, w').
Proof.
  intros Hbody. induction l as [|x l IH]; intros w; [by eexists|].
  rewrite for_each_cons. destruct (Hbody x w) as [w' ->]. apply IH.
Qed.

(** [try ... except Exception] with a handler that only prints never
    raises. *)
Lemma try_except_print_total (body : M unit) (prefix : string) w :
  ∃ w', try_except body (λ e, print (prefix +:+ str_of_exn e)) w = (Ok tt, w').
Proof.
  unfold try_except. destruct (body w) as [[[]|e] w']; by eexists.
Qed.

Lemma process_cor_total temp1 o args cor_id c w :
  ∃ w', process_cor io_fails annotator temp1 o args cor_id c w = (Ok tt, w').
Proof. apply try_except_print_total. Qed.

Lemma process_sentences_total o cors args w :
  ∃ w', process_sentences io_fails annotator o cors args w = (Ok tt, w').
Proof.
  unfold process_sentences. apply for_each_total.
  intros [i c] w0. apply process_cor_total.
Qed.

Lemma process_lines_total args lines w :
  ∃ w', process_lines io_fails annotator args lines w = (Ok tt, w').
Proof. apply try_except_print_total. Qed.

(** C7.  A failure while parsing or processing one group of parallel lines
    is caught and logged at the driver boundary and is never fatal: the body
    of the loop over line groups returns normally in every environment and
    for every annotator; when parsing a line of the group raises [e], its
    only effect is to print ["Failed to process line: e"]; and the loop goes
    on with the groups that follow, from the state the group left. *)
Theorem line_group_failure_not_fatal (args : Args) :
  (∀ lines w,
     ∃ w', process_lines io_fails annotator args lines w = (Ok tt, w'))
  ∧ (∀ lines e w,
       parse_all annotator (tok args) lines = Raise e →
       process_lines io_fails annotator args lines w
       = (Ok tt,
          set_stdout (stdout w ++ ["Failed to process line: " +:+ str_of_exn e])
                     w))
  ∧ (∀ before lines after w,
       ∃ w1 w2,
         for_each before (process_lines io_fails annotator args) w
         = (Ok tt, w1)
         ∧ process_lines io_fails annotator args lines w1 = (Ok tt, w2)
         ∧ for_each (before ++ lines :: after)
                    (process_lines io_fails annotator args) w
           = for_each after (process_lines io_fails annotator args) w2).
Proof.
  split_and!.
  - apply process_lines_total.
  - intros lines e w Hparse. unfold process_lines, try_except.
    by rewrite (bind_raise _ _ w e w) by (unfold call; by rewrite Hparse).
  - intros before lines after w.
    destruct (for_each_total before _ (process_lines_total args) w)
      as [w1 H1].
    destruct (process_lines_total args lines w1) as [w2 H2].
    exists w1, w2. split_and!; [done..|].
    by rewrite for_each_app, H1, for_each_cons, H2.
Qed.

(** C1 (amended).  An I/O failure on a per-type output file is not fatal.
    [process_sentences] returns normally in every environment; and when
    writing the edit [e] of a corrected text raises [x] (after the edits
    [pre] before it went through), the exception is caught by the handler
    of that corrected text, which prints ["Failed to align texts: x"]; the
    remaining edits [rest] of that corrected text are not written. *)
Theorem io_failure_caught_and_logged
    (temp1 : list Word) (o : Document) (args : Args) :
  (∀ cors w,
     ∃ w', process_sentences io_fails annotator o cors args w = (Ok tt, w'))
  ∧ (∀ cor_id c pre e rest x w w1 w2,
       annotate annotator o c (lev args) (merge args)
       = Ok (pre ++ e :: rest) →
       for_each pre (write_edit io_fails temp1 cor_id) w = (Ok tt, w1) →
       write_edit io_fails temp1 cor_id e w1 = (Raise x, w2) →
       process_cor io_fails annotator temp1 o args cor_id c w
       = (Ok tt,
          set_stdout (stdout w2 ++ ["Failed to align texts: " +:+ str_of_exn x])
                     w2)).
Proof.
  split; [intros cors w; apply process_sentences_total|].
  intros cor_id c pre e rest x w w1 w2 Hann Hpre He.
  unfold process_cor, try_except.
  rewrite (bind_ok _ _ w (pre ++ e :: rest) w)
    by (unfold call; by rewrite Hann).
  by rewrite for_each_app, Hpre, for_each_cons, He.
Qed.

End DriverControlFlow.

(** ** One edit, when no operation fails *)

Module DriverTactics.
Import ParallelToM2 RunSpec.

(** The paths of the per-type files are pairwise distinct, and none is the
    path of the histogram file. *)
Ltac path_neq :=
  let Heq := fresh in
  intros Heq;
  first
    [ apply m2_path_inj in Heq; congruence
    | apply src_path_inj in Heq; congruence
    | apply trg_path_inj in Heq; congruence
    | apply (f_equal str_last) in Heq;
      rewrite ?str_last_m2_path, ?str_last_src_path, ?str_last_trg_path in Heq;
      cbn in Heq; discriminate Heq ].

Ltac step_write H := erewrite write_ok; [ | exact H | reflexivity ].

Ltac world_simpl :=
  cbn [error_count out_files fs dirs handles stdout io_clock io_errors
       set_error_count set_out_files set_fs set_dirs set_handles set_stdout
       tick log_io_error f_name f_closed].

End DriverTactics.

Section WriteEdit.
Import ParallelToM2 RunSpec Samples DriverTactics.

Lemma dict_has_get {V} (d : list (string * V)) k :
  dict_has d k = true ↔ is_Some (dict_get d k).
Proof.
  induction d as [|[k' v] d IH]; cbn [dict_has dict_get].
  - split; [done | by intros [? ?]].
  - case_bool_decide; cbn [orb]; [split; eauto | done].
Qed.

Lemma dict_get_set_eq {V} (d : list (string * V)) k v :
  dict_get (dict_set d k v) k = Some v.
Proof.
  induction d as [|[k' v'] d IH]; cbn [dict_set dict_get].
  - by rewrite bool_decide_eq_true_2.
  - case_bool_decide; cbn [dict_get].
    + by rewrite bool_decide_eq_true_2.
    + by rewrite bool_decide_eq_false_2.
Qed.

Lemma dict_get_set_ne {V} (d : list (string * V)) k k' v :
  k ≠ k' → dict_get (dict_set d k v) k' = dict_get d k'.
Proof.
  intros Hne. induction d as [|[k0 v0] d IH]; cbn [dict_set dict_get].
  - by rewrite bool_decide_eq_false_2.
  - destruct (decide (k0 = k)) as [->|Hk0].
    + rewrite bool_decide_eq_true_2 by done. cbn [dict_get].
      by rewrite !bool_decide_eq_false_2.
    + rewrite (bool_decide_eq_false_2 (k0 = k)) by done. cbn [dict_get].
      by rewrite IH.
Qed.

Lemma dict_has_set {V} (d : list (string * V)) k k' v :
  dict_has (dict_set d k v) k' = bool_decide (k = k') || dict_has d k'.
Proof.
  induction d as [|[k0 v0] d IH]; cbn [dict_set dict_has].
  - by rewrite orb_false_r.
  - destruct (decide (k0 = k)) as [->|Hk0].
    + rewrite (bool_decide_eq_true_2 (k = k)) by done. cbn [dict_has].
      by destruct (bool_decide (k = k')).
    + rewrite (bool_decide_eq_false_2 (k0 = k)) by done. cbn [dict_has].
      rewrite IH. by destruct (bool_decide (k = k')), (bool_decide (k0 = k')).
Qed.

Lemma tally_snoc labels t : tally (labels ++ [t]) = counter_incr (tally labels) t.
Proof. unfold tally. by rewrite foldl_app. Qed.

Lemma rendered_snoc f k xs x :
  rendered f k (xs ++ [x])
  = if decide (entry_key x = k) then rendered f k xs +:+ f x
    else rendered f k xs.
Proof.
  unfold rendered. rewrite filter_app, filter_cons, filter_nil.
  case_decide.
  - rewrite map_app. cbn [map]. by rewrite str_concat_snoc.
  - by rewrite app_nil_r.
Qed.

Lemma rendered_fresh f k xs : k ∉ map entry_key xs → rendered f k xs = "".
Proof.
  intros Hk. unfold rendered.
  replace (filter (λ x, entry_key x = k) xs) with (@nil entry); [done|].
  symmetry. induction xs as [|x xs IH]; [done|].
  rewrite filter_cons. cbn [map] in Hk. rewrite not_elem_of_cons in Hk.
  destruct Hk as [Hx Hxs]. case_decide; [congruence | by apply IH].
Qed.

Lemma append_entry_m2 x files :
  append_entry x files !! m2_path (entry_key x)
  = Some (default "" (files !! m2_path (entry_key x)) +:+ m2_block x).
Proof.
  unfold append_entry. cbn zeta.
  rewrite !fs_append_lookup_ne by path_neq.
  rewrite !fs_append_lookup_eq. cbn [from_option id].
  unfold m2_block. by rewrite !str_app_assoc.
Qed.

Lemma append_entry_src x files :
  append_entry x files !! src_path (entry_key x)
  = Some (default "" (files !! src_path (entry_key x)) +:+ src_line x).
Proof.
  unfold append_entry. cbn zeta.
  rewrite fs_append_lookup_ne by path_neq.
  rewrite fs_append_lookup_eq.
  by rewrite !fs_append_lookup_ne by path_neq.
Qed.

Lemma append_entry_trg x files :
  append_entry x files !! trg_path (entry_key x)
  = Some (default "" (files !! trg_path (entry_key x)) +:+ trg_line x).
Proof.
  unfold append_entry. cbn zeta.
  rewrite fs_append_lookup_eq.
  by rewrite !fs_append_lookup_ne by path_neq.
Qed.

Lemma append_entry_other x files q :
  q ≠ m2_path (entry_key x) → q ≠ src_path (entry_key x) →
  q ≠ trg_path (entry_key x) →
  append_entry x files !! q = files !! q.
Proof.
  intros. unfold append_entry. cbn zeta.
  by rewrite !fs_append_lookup_ne by done.
Qed.

(** The effect of the loop body on an edit whose files are open. *)
Lemma write_edit_present (x : entry) w f0 f1 f2 :
  let k := entry_key x in
  dict_get (out_files w) k = Some (f0, f1, f2) →
  handles w !! f0 = Some {| f_name := m2_path k; f_closed := false |} →
  handles w !! f1 = Some {| f_name := src_path k; f_closed := false |} →
  handles w !! f2 = Some {| f_name := trg_path k; f_closed := false |} →
  ∃ w', write_edit no_failures x.1.1 x.1.2 x.2 w = (Ok tt, w')
        ∧ error_count w' = counter_incr (error_count w) (entry_type x)
        ∧ out_files w' = out_files w
        ∧ handles w' = handles w
        ∧ dirs w' = dirs w
        ∧ stdout w' = stdout w
        ∧ fs w' = append_entry x (fs w).
Proof.
  destruct x as [[temp1 cor_id] e].
  intros k Hget H0 H1 H2. cbn [fst snd]. set (x := (temp1, cor_id, e)) in *.
  assert (Hhas : dict_has (out_files w) k = true)
    by (apply dict_has_get; by rewrite Hget).
  unfold write_edit. change (file_name_of (type e)) with k.
  unfold mbind, M_bind, modify, gets, mret, M_ret.
  cbn [out_files set_error_count].
  rewrite Hhas. cbn [negb out_files set_error_count]. rewrite Hget.
  step_write H0. step_write H0. step_write H0.
  unfold append_entry, src_line, trg_line. cbn [fst snd].
  change (entry_key x) with k. change (to_srctrg x.2) with (to_srctrg e).
  destruct (to_srctrg e) as [src trg].
  step_write H1. step_write H2.
  eexists. split; [reflexivity|]. by split_and!.
Qed.

(** The effect of the loop body on the first edit of its file name. *)
Lemma write_edit_absent (x : entry) w :
  let k := entry_key x in
  let n := length (handles w) in
  dict_has (out_files w) k = false →
  ∃ w', write_edit no_failures x.1.1 x.1.2 x.2 w = (Ok tt, w')
        ∧ error_count w' = counter_incr (error_count w) (entry_type x)
        ∧ out_files w' = dict_set (out_files w) k (n, n + 1, n + 2)
        ∧ handles w'
          = handles w ++ [ {| f_name := m2_path k; f_closed := false |};
                           {| f_name := src_path k; f_closed := false |};
                           {| f_name := trg_path k; f_closed := false |} ]
        ∧ dirs w' = {[out_dir k]} ∪ dirs w
        ∧ stdout w' = stdout w
        ∧ fs w'
          = append_entry x
              (<[trg_path k := ""]>
                 (<[src_path k := ""]> (<[m2_path k := ""]> (fs w)))).
Proof.
  destruct x as [[temp1 cor_id] e].
  intros k n Hhas. cbn [fst snd]. set (x := (temp1, cor_id, e)) in *.
  unfold write_edit. change (file_name_of (type e)) with k.
  unfold mbind, M_bind, modify, gets, mret, M_ret.
  world_simpl. rewrite Hhas. cbn [negb].
  rewrite makedirs_ok. world_simpl.
  rewrite open_w_ok. world_simpl.
  rewrite open_w_ok. world_simpl.
  rewrite open_w_ok. world_simpl.
  rewrite dict_get_set_eq.
  rewrite !length_app. cbn [length]. fold n.
  rewrite <- !app_assoc. cbn [app].
  change (file_path k +:+ ".m2") with (m2_path k).
  change (file_path k +:+ ".src") with (src_path k).
  change (file_path k +:+ ".trg") with (trg_path k).
  set (objs := [ {| f_name := m2_path k; f_closed := false |};
                 {| f_name := src_path k; f_closed := false |};
                 {| f_name := trg_path k; f_closed := false |} ]).
  assert (H0 : (handles w ++ objs) !! n = objs !! 0).
  { rewrite lookup_app_r by (unfold n; lia). f_equal. unfold n. lia. }
  assert (H1 : (handles w ++ objs) !! (n + 1) = objs !! 1).
  { rewrite lookup_app_r by (unfold n; lia). f_equal. unfold n. lia. }
  assert (H2 : (handles w ++ objs) !! (n + 1 + 1) = objs !! 2).
  { rewrite lookup_app_r by (unfold n; lia). f_equal. unfold n. lia. }
  step_write H0. world_simpl. step_write H0. world_simpl.
  step_write H0. world_simpl.
  unfold append_entry, src_line, trg_line. cbn [fst snd].
  change (entry_key x) with k. change (to_srctrg x.2) with (to_srctrg e).
  destruct (to_srctrg e) as [src trg].
  step_write H1. world_simpl. step_write H2. world_simpl.
  eexists. split; [reflexivity|]. world_simpl.
  replace (n + 1 + 1) with (n + 2) by lia. by split_and!.
Qed.

Lemma counter_get_incr_eq c t : counter_get (counter_incr c t) t = counter_get c t + 1.
Proof. unfold counter_incr, counter_get at 1. by rewrite dict_get_set_eq. Qed.

Lemma counter_get_incr_ne c t t' :
  t ≠ t' → counter_get (counter_incr c t) t' = counter_get c t'.
Proof.
  intros. unfold counter_incr, counter_get at 1 3. by rewrite dict_get_set_ne.
Qed.

Lemma consistent_nil w :
  error_count w = [] → out_files w = [] →
  consistent (length (handles w)) [] w.
Proof.
  intros Hec Hof. constructor.
  - by rewrite Hec.
  - intros k. rewrite Hof. cbn. by rewrite elem_of_nil.
  - intros k f0 f1 f2. by rewrite Hof.
  - intros i ? ?. lia.
Qed.

(** The loop body on one edit, from a state the run can be in: it returns
    normally, and the state it leaves is the state after one more entry. *)
Lemma write_edit_consistent n0 xs w (x : entry) :
  let k := entry_key x in
  consistent n0 xs w →
  ∃ w', write_edit no_failures x.1.1 x.1.2 x.2 w = (Ok tt, w')
        ∧ consistent n0 (xs ++ [x]) w'
        ∧ error_count w' = counter_incr (error_count w) (entry_type x)
        ∧ stdout w' = stdout w
        ∧ fs w' !! m2_path k
          = Some (written_so_far w k (m2_path k) +:+ m2_block x)
        ∧ fs w' !! src_path k
          = Some (written_so_far w k (src_path k) +:+ src_line x)
        ∧ fs w' !! trg_path k
          = Some (written_so_far w k (trg_path k) +:+ trg_line x)
        ∧ handles w'
          = handles w
            ++ (if dict_has (out_files w) k then []
                else [ {| f_name := m2_path k; f_closed := false |};
                       {| f_name := src_path k; f_closed := false |};
                       {| f_name := trg_path k; f_closed := false |} ]).
Proof.
  intros k [Hcount Hkeys Hfiles Hreg]. subst k.
  destruct (dict_has (out_files w) (entry_key x)) eqn:Hhas.
  - destruct (proj1 (dict_has_get _ _) Hhas) as [[[f0 f1] f2] Hget].
    destruct (Hfiles _ _ _ _ Hget) as (H0 & H1 & H2 & Hm2 & Hsrc & Htrg & Hdir).
    destruct (write_edit_present x w f0 f1 f2 Hget H0 H1 H2)
      as (w' & Hrun & Hec & Hof & Hh & Hd & Hso & Hfs).
    assert (Hk : entry_key x ∈ map entry_key xs) by (by apply Hkeys).
    exists w'. split_and!; [done| |done..| | | |].
    + constructor.
      * rewrite Hec, Hcount, map_app. cbn [map]. by rewrite tally_snoc.
      * intros k'. rewrite Hof, Hkeys, map_app, elem_of_app. cbn [map].
        rewrite list_elem_of_singleton.
        split; [by left | by intros [?| ->]].
      * intros k' g0 g1 g2 Hget'. rewrite Hof in Hget'.
        destruct (Hfiles _ _ _ _ Hget')
          as (G0 & G1 & G2 & Gm2 & Gsrc & Gtrg & Gdir).
        rewrite Hh, Hd, Hfs, !rendered_snoc.
        destruct (decide (entry_key x = k')) as [<-|Hne].
        -- rewrite append_entry_m2, append_entry_src, append_entry_trg.
           by rewrite Gm2, Gsrc, Gtrg.
        -- by rewrite !append_entry_other by path_neq.
      * intros i Hi Hlt. rewrite Hh in Hlt. rewrite Hof. by apply Hreg.
    + unfold written_so_far. by rewrite Hhas, Hfs, append_entry_m2.
    + unfold written_so_far. by rewrite Hhas, Hfs, append_entry_src.
    + unfold written_so_far. by rewrite Hhas, Hfs, append_entry_trg.
    + by rewrite Hh, app_nil_r.
  - destruct (write_edit_absent x w Hhas)
      as (w' & Hrun & Hec & Hof & Hh & Hd & Hso & Hfs).
    assert (Hk : entry_key x ∉ map entry_key xs).
    { intros Hin. apply Hkeys in Hin. congruence. }
    assert (Hm2 : fs w' !! m2_path (entry_key x) = Some ("" +:+ m2_block x)).
    { rewrite Hfs, append_entry_m2.
      rewrite !lookup_insert_ne by path_neq. by rewrite lookup_insert_eq. }
    assert (Hsrc : fs w' !! src_path (entry_key x) = Some ("" +:+ src_line x)).
    { rewrite Hfs, append_entry_src.
      rewrite !lookup_insert_ne by path_neq. by rewrite lookup_insert_eq. }
    assert (Htrg : fs w' !! trg_path (entry_key x) = Some ("" +:+ trg_line x)).
    { rewrite Hfs, append_entry_trg. by rewrite lookup_insert_eq. }
    exists w'. split_and!; [done| |done..| | | |].
    + constructor.
      * rewrite Hec, Hcount, map_app. cbn [map]. by rewrite tally_snoc.
      * intros k'. rewrite Hof, dict_has_set, map_app, elem_of_app. cbn [map].
        rewrite list_elem_of_singleton, orb_true_iff, bool_decide_eq_true.
        rewrite Hkeys. split; (intros [?|?]; [by right | by left]).
      * intros k' g0 g1 g2 Hget'. rewrite Hof in Hget'.
        rewrite !rendered_snoc.
        destruct (decide (entry_key x = k')) as [<-|Hne].
        -- rewrite dict_get_set_eq in Hget'.
           injection Hget' as <- <- <-.
           rewrite !(rendered_fresh _ (entry_key x) xs Hk), Hh, Hd.
           split_and!;
             [| | |done..|by apply elem_of_union_l, elem_of_singleton].
           ++ rewrite lookup_app_r by lia. by rewrite Nat.sub_diag.
           ++ rewrite lookup_app_r by lia.
              by replace (length (handles w) + 1 - length (handles w))
                with 1 by lia.
           ++ rewrite lookup_app_r by lia.
              by replace (length (handles w) + 2 - length (handles w))
                with 2 by lia.
        -- rewrite dict_get_set_ne in Hget' by done.
           destruct (Hfiles _ _ _ _ Hget')
             as (G0 & G1 & G2 & Gm2 & Gsrc & Gtrg & Gdir).
           rewrite Hh, Hd, Hfs.
           rewrite !append_entry_other by path_neq.
           rewrite !lookup_insert_ne by path_neq.
           split_and!; [| | |done..|by apply elem_of_union_r].
           ++ rewrite lookup_app_l; [done | by eapply lookup_lt_Some].
           ++ rewrite lookup_app_l; [done | by eapply lookup_lt_Some].
           ++ rewrite lookup_app_l; [done | by eapply lookup_lt_Some].
      * intros i Hi Hlt. rewrite Hh, length_app in Hlt. cbn [length] in Hlt.
        rewrite Hof.
        destruct (decide (i < length (handles w))) as [Hold|Hnew].
        -- destruct (Hreg i Hi Hold) as (k' & f0 & f1 & f2 & Hget & Hi').
           exists k', f0, f1, f2. split; [|done].
           rewrite dict_get_set_ne; [done|]. intros <-.
           assert (dict_has (out_files w) (entry_key x) = true)
             by (apply dict_has_get; by rewrite Hget).
           congruence.
        -- eexists _, _, _, _. rewrite dict_get_set_eq. split; [done|]. lia.
    + unfold written_so_far. by rewrite Hhas.
    + unfold written_so_far. by rewrite Hhas.
    + unfold written_so_far. by rewrite Hhas.
    + done.
Qed.

End WriteEdit.

(** ** A whole run, when no operation fails *)

Section NoFailureRun.
Import ParallelToM2 RunSpec Samples DriverTactics.

Variable annotator : Annotator.

Lemma consistent_set_stdout n0 xs o w :
  consistent n0 xs w → consistent n0 xs (set_stdout o w).
Proof. by intros [? ? ? ?]. Qed.

(** A loop that writes the entries [g a] for each element [a]. *)
Lemma for_each_consistent {A} n0 (l : list A) (body : A → M unit)
    (g : A → list entry) :
  (∀ a xs w, consistent n0 xs w →
     ∃ w', body a w = (Ok tt, w') ∧ consistent n0 (xs ++ g a) w') →
  ∀ xs w, consistent n0 xs w →
    ∃ w', for_each l body w = (Ok tt, w')
          ∧ consistent n0 (xs ++ concat (map g l)) w'.
Proof.
  intros Hbody. induction l as [|a l IH]; intros xs w Hw.
  - exists w. cbn. by rewrite app_nil_r.
  - destruct (Hbody a xs w Hw) as (w1 & H1 & Hw1).
    destruct (IH _ _ Hw1) as (w2 & H2 & Hw2).
    exists w2. rewrite for_each_cons, H1, H2. split; [done|].
    cbn [map concat]. by rewrite app_assoc.
Qed.

Lemma process_cor_consistent n0 o args cor_id c xs w :
  consistent n0 xs w →
  ∃ w', process_cor no_failures annotator (all_words o) o args cor_id c w
        = (Ok tt, w')
        ∧ consistent n0 (xs ++ cor_entries annotator o args cor_id c) w'.
Proof.
  intros Hw. unfold process_cor, cor_entries, try_except, mbind, M_bind, call.
  destruct (annotate annotator o c (lev args) (merge args)) as [edits|e].
  - destruct (for_each_consistent n0 edits
                (write_edit no_failures (all_words o) cor_id)
                (λ e, [(all_words o, cor_id, e)])) with (xs := xs) (w := w)
      as (w' & Hrun & Hw'); [|done|].
    + intros e ys w0 Hw0.
      destruct (write_edit_consistent n0 ys w0 (all_words o, cor_id, e) Hw0)
        as (w1 & H1 & Hw1 & _).
      by exists w1.
    + exists w'. rewrite Hrun. split; [done|].
      replace (map (λ e, (all_words o, cor_id, e)) edits)
        with (concat (map (λ e, [(all_words o, cor_id, e)]) edits)); [done|].
      clear. induction edits as [|e edits IH]; [done|].
      cbn [map concat app]. by rewrite IH.
  - eexists. split; [reflexivity|].
    rewrite app_nil_r. by apply consistent_set_stdout.
Qed.

Lemma process_sentences_consistent n0 o cors args xs w :
  consistent n0 xs w →
  ∃ w', process_sentences no_failures annotator o cors args w = (Ok tt, w')
        ∧ consistent n0 (xs ++ sentences_entries annotator o cors args) w'.
Proof.
  intros Hw. unfold process_sentences, sentences_entries.
  apply (for_each_consistent n0 (imap pair cors)
           (λ ic, process_cor no_failures annotator (all_words o) o args
                              ic.1 ic.2)
           (λ ic, cor_entries annotator o args ic.1 ic.2)); [|done].
  intros [i c] ys w0 Hw0. by apply process_cor_consistent.
Qed.

Lemma process_lines_consistent n0 args lines xs w :
  consistent n0 xs w →
  ∃ w', process_lines no_failures annotator args lines w = (Ok tt, w')
        ∧ consistent n0 (xs ++ lines_entries annotator args lines) w'.
Proof.
  intros Hw. unfold process_lines, lines_entries, try_except, mbind, M_bind,
    call.
  destruct (parse_all annotator (tok args) lines) as [[|d ds]|e].
  - eexists. split; [reflexivity|].
    rewrite app_nil_r. by apply consistent_set_stdout.
  - destruct (process_sentences_consistent n0 d ds args xs w Hw)
      as (w' & Hrun & Hw').
    exists w'. by rewrite Hrun.
  - eexists. split; [reflexivity|].
    rewrite app_nil_r. by apply consistent_set_stdout.
Qed.

Lemma consistent_outputs n0 xs w : consistent n0 xs w → outputs_of xs w.
Proof.
  intros [Hcount Hkeys Hfiles _]. split; [done|].
  intros k Hk. apply Hkeys, dict_has_get in Hk as [[[f0 f1] f2] Hget].
  destruct (Hfiles _ _ _ _ Hget) as (_ & _ & _ & ? & ? & ? & ?). done.
Qed.

Lemma same_outputs_refl w : same_outputs w w.
Proof. by unfold same_outputs. Qed.

Lemma same_outputs_trans w1 w2 w3 :
  same_outputs w1 w2 → same_outputs w2 w3 → same_outputs w1 w3.
Proof.
  intros (? & ? & ? & ?) (? & ? & ? & ?). unfold same_outputs.
  split_and!; congruence.
Qed.

(** [close] when nothing fails: it returns, changes no output, and leaves
    the file object closed, and every other file object as it was. *)
Lemma close_effect h w :
  ∃ w', close no_failures h w = (Ok tt, w')
        ∧ same_outputs w w'
        ∧ length (handles w') = length (handles w)
        ∧ (h < length (handles w) → closed_in w' h)
        ∧ (∀ i, closed_in w i → closed_in w' i).
Proof.
  unfold close, mbind, M_bind, gets, modify, io, no_failures, mret, M_ret.
  destruct (handles w !! h) as [f|] eqn:Hh; [destruct (f_closed f) eqn:Hc|].
  - exists w. split_and!; [done | apply same_outputs_refl | done | | done].
    intros _. by exists f.
  - eexists. split_and!; [done | done | | |]; unfold closed_in; world_simpl.
    + by rewrite length_insert.
    + intros Hlt. eexists. split; [by apply list_lookup_insert_eq | done].
    + intros i (f' & Hi & Hf'). destruct (decide (h = i)) as [->|Hne].
      * rewrite Hh in Hi. injection Hi as <-. congruence.
      * exists f'. split; [by rewrite list_lookup_insert_ne | done].
  - exists w. split_and!; [done | apply same_outputs_refl | done | | done].
    intros Hlt. apply lookup_ge_None in Hh. lia.
Qed.

Lemma close_frame h w :
  ∃ w', close no_failures h w = (Ok tt, w') ∧ same_outputs w w'.
Proof. destruct (close_effect h w) as (w' & ? & ? & _). by exists w'. Qed.

Lemma dict_get_In {V} (d : list (string * V)) k v :
  dict_get d k = Some v → (k, v) ∈ d.
Proof.
  induction d as [|[k' v'] d IH]; cbn [dict_get]; [done|].
  case_bool_decide; intros Hget; simplify_eq; [left | right; auto].
Qed.

(** The loop of the [finally] clause over the items of [out_files]. *)
Lemma close_all_effect (l : list (string * (nat * nat * nat))) :
  ∀ w, ∃ w',
    for_each l (λ kv, let '(f0, f1, f2) := kv.2 in
                      close no_failures f0;; close no_failures f1;;
                      close no_failures f2) w
    = (Ok tt, w')
    ∧ same_outputs w w'
    ∧ length (handles w') = length (handles w)
    ∧ (∀ i, closed_in w i → closed_in w' i)
    ∧ (∀ k f0 f1 f2 i, (k, (f0, f1, f2)) ∈ l → i = f0 ∨ i = f1 ∨ i = f2 →
                       i < length (handles w) → closed_in w' i).
Proof.
  induction l as [|[k [[f0 f1] f2]] l IH]; intros w.
  - exists w. split_and!; [done | apply same_outputs_refl | done..|].
    intros ? ? ? ? ? Hin. by apply elem_of_nil in Hin.
  - rewrite for_each_cons. cbn [snd].
    destruct (close_effect f0 w) as (w1 & H1 & S1 & L1 & C1 & M1).
    destruct (close_effect f1 w1) as (w2 & H2 & S2 & L2 & C2 & M2).
    destruct (close_effect f2 w2) as (w3 & H3 & S3 & L3 & C3 & M3).
    destruct (IH w3) as (w' & H' & S' & L' & M' & C').
    rewrite (bind_ok _ _ w tt w1 H1), (bind_ok _ _ w1 tt w2 H2), H3, H'.
    exists w'. split_and!; [done | eauto using same_outputs_trans | lia
                           | by auto |].
    intros k' g0 g1 g2 i Hin Hi Hlt. apply elem_of_cons in Hin as [Heq|Hin].
    + injection Heq as -> -> -> ->. apply M'.
      destruct Hi as [->|[->| ->]].
      * apply M3, M2, C1. lia.
      * apply M3, C2. lia.
      * apply C3. lia.
    + apply (C' k' g0 g1 g2); [done..|lia].
Qed.

Lemma close_out_files_effect w :
  ∃ w', close_out_files no_failures w = (Ok tt, w')
        ∧ same_outputs w w'
        ∧ length (handles w') = length (handles w)
        ∧ (∀ i, closed_in w i → closed_in w' i)
        ∧ (∀ k f0 f1 f2 i,
             dict_get (out_files w) k = Some (f0, f1, f2) →
             i = f0 ∨ i = f1 ∨ i = f2 →
             i < length (handles w) → closed_in w' i).
Proof.
  unfold close_out_files. unfold mbind at 1, M_bind at 1, gets.
  destruct (close_all_effect (out_files w) w) as (w' & Hrun & S' & L' & M' & C').
  exists w'. split_and!; [done..|].
  intros k f0 f1 f2 i Hget. apply (C' k f0 f1 f2). by apply dict_get_In.
Qed.

Lemma outputs_of_same xs w w' :
  same_outputs w w' → outputs_of xs w → outputs_of xs w'.
Proof.
  intros (Hec & _ & Hfs & Hd) [Hcount Hfiles]. unfold outputs_of.
  by rewrite Hec, Hfs, Hd.
Qed.

(** Writing the entries of the counter through an open file object. *)
Lemma write_counts_ok h p (counts : list (string * nat)) :
  ∀ w c,
    handles w !! h = Some {| f_name := p; f_closed := false |} →
    fs w !! p = Some c →
    ∃ w', for_each counts
            (λ kv, write no_failures h (kv.1 +:+ tab +:+ pretty kv.2)) w
          = (Ok tt, w')
          ∧ error_count w' = error_count w ∧ dirs w' = dirs w
          ∧ handles w' = handles w
          ∧ fs w' = <[p := c +:+ histogram counts]> (fs w).
Proof.
  induction counts as [|kv counts IH]; intros w c Hh Hp.
  - exists w. split_and!; [done..|].
    unfold histogram. cbn. by rewrite str_app_nil_r, insert_id.
  - rewrite for_each_cons. erewrite write_ok; [| exact Hh | reflexivity].
    cbn [f_name].
    destruct (IH (set_fs (fs_append p (kv.1 +:+ tab +:+ pretty kv.2) (fs w))
                         (tick w))
                 (c +:+ kv.1 +:+ tab +:+ pretty kv.2))
      as (w' & Hrun & Hec & Hd & Hhs & Hfs).
    + exact Hh.
    + cbn [fs set_fs]. by rewrite fs_append_lookup_eq, Hp.
    + exists w'. rewrite Hrun. split_and!; [done..|].
      rewrite Hfs. cbn [fs set_fs]. unfold fs_append.
      rewrite insert_insert_eq.
      change (histogram (kv :: counts))
        with ((kv.1 +:+ tab +:+ pretty kv.2) +:+ histogram counts).
      by rewrite !str_app_assoc.
Qed.

Lemma save_error_counts_ok w :
  ∃ w', save_error_counts no_failures w = (Ok tt, w')
        ∧ error_count w' = error_count w ∧ dirs w' = dirs w
        ∧ fs w' = <["error_file" := histogram (error_count w)]> (fs w)
        ∧ length (handles w') = S (length (handles w))
        ∧ closed_in w' (length (handles w))
        ∧ (∀ i, closed_in w i → closed_in w' i).
Proof.
  unfold save_error_counts. unfold mbind at 1, M_bind at 1.
  rewrite open_w_ok. unfold try_finally, mbind, M_bind, gets.
  set (w1 := set_handles _ _).
  destruct (write_counts_ok (length (handles w)) "error_file" (error_count w)
              w1 "")
    as (w2 & Hrun & Hec & Hd & Hhs & Hfs).
  - unfold w1. cbn [handles set_handles].
    rewrite lookup_app_r by lia. by rewrite Nat.sub_diag.
  - unfold w1. cbn [fs set_handles set_fs]. by rewrite lookup_insert_eq.
  - change (error_count w1) with (error_count w). rewrite Hrun.
    destruct (close_effect (length (handles w)) w2)
      as (w3 & Hclose & Hw3 & L3 & C3 & M3).
    rewrite Hclose. exists w3. destruct Hw3 as (Hec3 & _ & Hfs3 & Hd3).
    assert (Hlen : length (handles w2) = S (length (handles w))).
    { rewrite Hhs. unfold w1. cbn [handles set_handles].
      rewrite length_app. cbn [length]. lia. }
    split_and!; [done | by rewrite Hec3, Hec | by rewrite Hd3, Hd | | | |].
    + rewrite Hfs3, Hfs. unfold w1. cbn [fs set_handles set_fs tick].
      by rewrite insert_insert_eq.
    + lia.
    + apply C3. lia.
    + intros i (f & Hi & Hf). apply M3. exists f. split; [|done].
      rewrite Hhs. unfold w1. cbn [handles set_handles].
      rewrite lookup_app_l; [done | by eapply lookup_lt_Some].
Qed.

(** The outcome of a run in which no operation fails, in terms of the edits
    it processes: [main] returns normally; the counter is the tally of their
    types; the histogram file holds the entries of the counter one after the
    other; and for every file name the three files hold what was written for
    the edits filed under it, in order. *)
Lemma main_no_failures args orig_lines cor_lines w :
  let xs := run_entries annotator args orig_lines cor_lines in
  ∃ w', main no_failures annotator args orig_lines cor_lines w = (Ok tt, w')
        ∧ outputs_of xs w'
        ∧ fs w' !! "error_file"
          = Some (histogram (tally (map entry_type xs)))
        ∧ (∀ i, length (handles w) ≤ i → i < length (handles w') →
                closed_in w' i).
Proof.
  intros xs. unfold main.
  unfold mbind, M_bind, print, modify, try_finally.
  set (w0 := set_out_files [] _).
  destruct (for_each_consistent (length (handles w))
              (zip_files orig_lines cor_lines)
              (process_lines no_failures annotator args)
              (lines_entries annotator args)) with (xs := @nil entry) (w := w0)
    as (w1 & Hloop & Hw1).
  { intros lines ys w' Hw'. by apply process_lines_consistent. }
  { by apply (consistent_nil w0). }
  rewrite Hloop. cbn [app] in Hw1. fold (run_entries annotator args orig_lines cor_lines) in Hw1.
  fold xs in Hw1. pose proof (cons_registered _ _ _ Hw1) as Hreg.
  apply consistent_outputs in Hw1.
  destruct (close_out_files_effect w1) as (w2 & Hclose & Hw2 & L2 & M2 & C2).
  rewrite Hclose.
  apply (outputs_of_same _ _ _ Hw2) in Hw1.
  destruct (save_error_counts_ok w2)
    as (w3 & Hsave & Hec & Hd & Hfs & L3 & C3 & M3).
  exists w3. split; [done|]. destruct Hw1 as [Hcount Hfiles]. split_and!.
  - split; [by rewrite Hec|].
    intros k Hk. destruct (Hfiles k Hk) as (? & ? & ? & ?).
    rewrite Hd, Hfs. rewrite !lookup_insert_ne by path_neq. done.
  - by rewrite Hfs, lookup_insert_eq, Hcount.
  - intros i Hi Hlt. destruct (decide (i < length (handles w1))) as [Hold|Hnew].
    + destruct (Hreg i Hi Hold) as (k & f0 & f1 & f2 & Hget & Hi').
      apply M3. by apply (C2 k f0 f1 f2).
    + replace i with (length (handles w2)) by lia. exact C3.
Qed.

Lemma tally_keys labels t : dict_has (tally labels) t = true ↔ t ∈ labels.
Proof.
  induction labels as [|t' labels IH] using rev_ind.
  - cbn. by rewrite elem_of_nil.
  - rewrite tally_snoc. unfold counter_incr.
    rewrite dict_has_set, orb_true_iff, bool_decide_eq_true, IH.
    rewrite elem_of_app, list_elem_of_singleton.
    split; (intros [?|?]; [by right | by left]).
Qed.


(** C3.  In a run in which no file operation fails, for every error-type
    label the run has counted, the directory [os.path.join("out", k)]
    --- where [k] is the label with [":"] replaced by ["_"] --- has been
    created, and the files [os.path.join("out", k, k)] with the extensions
    [.m2], [.src] and [.trg] exist.  When [k] is not empty and neither
    starts nor ends with ["/"], the directory is [out/k] and the files are
    [out/k/k.m2], [out/k/k.src] and [out/k/k.trg], inside it. *)
Theorem per_type_files_produced args orig_lines cor_lines w :
  ∃ w', main no_failures annotator args orig_lines cor_lines w = (Ok tt, w')
        ∧ ∀ label, dict_has (error_count w') label = true →
            let k := replace_char ":" "_" label in
            let dir := path_join "out" [k] in
            dir ∈ dirs w'
            ∧ is_Some (fs w' !! (path_join dir [k] +:+ ".m2"))
            ∧ is_Some (fs w' !! (path_join dir [k] +:+ ".src"))
            ∧ is_Some (fs w' !! (path_join dir [k] +:+ ".trg"))
            ∧ (k ≠ "" → starts_with_sep k = false → ends_with_sep k = false →
               dir = "out/" +:+ k
               ∧ path_join dir [k] = "out/" +:+ k +:+ "/" +:+ k).
Proof.
  destruct (main_no_failures args orig_lines cor_lines w)
    as (w' & Hrun & [Hcount Hfiles] & _ & _).
  exists w'. split; [done|]. intros label Hlabel k dir.
  rewrite Hcount in Hlabel. apply tally_keys in Hlabel.
  destruct (Hfiles k) as (Hdir & Hm2 & Hsrc & Htrg).
  { apply list_elem_of_In, in_map_iff. apply list_elem_of_In, in_map_iff in Hlabel
      as (x & <- & Hx). by exists x. }
  split_and!;
    [done | eexists; exact Hm2 | eexists; exact Hsrc | eexists; exact Htrg |].
  intros Hk Hs He. by apply paths_inside_out.
Qed.


(** C10.  From a state the run is in after writing the entries [xs], and
    when no file operation fails, the loop body on one more edit returns
    normally and: increments the count of the edit's type by exactly one and
    leaves every other count unchanged; appends the three-line block (source
    line, annotation line, empty line) to the .m2 file of the type; and
    appends one line to its .src file and one line to its .trg file. *)
Theorem write_edit_effect n0 xs w (temp1 : list Word) (cor_id : nat)
    (edit : Edit) :
  consistent n0 xs w →
  let k := file_name_of (type edit) in
  ∃ w', write_edit no_failures temp1 cor_id edit w = (Ok tt, w')
        ∧ counter_get (error_count w') (type edit)
          = counter_get (error_count w) (type edit) + 1
        ∧ (∀ t, t ≠ type edit →
                counter_get (error_count w') t = counter_get (error_count w) t)
        ∧ fs w' !! m2_path k
          = Some (written_so_far w k (m2_path k)
                  +:+ (source_line temp1 +:+ (to_m2 edit cor_id +:+ nl) +:+ nl))
        ∧ fs w' !! src_path k
          = Some (written_so_far w k (src_path k)
                  +:+ ((to_srctrg edit).1 +:+ nl))
        ∧ fs w' !! trg_path k
          = Some (written_so_far w k (trg_path k)
                  +:+ ((to_srctrg edit).2 +:+ nl)).
Proof.
  intros Hw k.
  destruct (write_edit_consistent n0 xs w (temp1, cor_id, edit) Hw)
    as (w' & Hrun & _ & Hec & _ & Hm2 & Hsrc & Htrg & _).
  exists w'. split_and!; [done | | | done..].
  - rewrite Hec. apply counter_get_incr_eq.
  - intros t Ht. rewrite Hec. by apply counter_get_incr_ne.
Qed.

(** X1.  In a run in which no file operation fails, every file object
    created during the run is closed when [main] returns, whatever [parse] and
    [annotate] raise on the way. *)
Theorem opened_files_closed_when_nothing_fails args orig_lines cor_lines w :
  ∃ w', main no_failures annotator args orig_lines cor_lines w = (Ok tt, w')
        ∧ ∀ i f, length (handles w) ≤ i → handles w' !! i = Some f →
                 f_closed f = true.
Proof.
  destruct (main_no_failures args orig_lines cor_lines w)
    as (w' & Hrun & _ & _ & Hclosed).
  exists w'. split; [done|]. intros i f Hi Hf.
  destruct (Hclosed i Hi) as (f' & Hf' & Hc); [by eapply lookup_lt_Some|].
  congruence.
Qed.

(** X2.  The per-type files are opened on first use.  In a state the run reaches
    after the entries [xs], when no file operation fails: the files of a
    file name are open exactly when an entry has been filed under it; and
    the loop body creates file objects only for an edit whose file name has
    none yet, namely the three files of that file name. *)
Theorem files_opened_on_first_use n0 xs w (temp1 : list Word) (cor_id : nat)
    (edit : Edit) :
  consistent n0 xs w →
  let k := file_name_of (type edit) in
  (∀ k', dict_has (out_files w) k' = true ↔ k' ∈ map entry_key xs)
  ∧ ∃ w', write_edit no_failures temp1 cor_id edit w = (Ok tt, w')
          ∧ handles w'
            = handles w
              ++ (if dict_has (out_files w) k then []
                  else [ {| f_name := m2_path k; f_closed := false |};
                         {| f_name := src_path k; f_closed := false |};
                         {| f_name := trg_path k; f_closed := false |} ]).
Proof.
  intros Hw k. split; [apply (cons_keys _ _ _ Hw)|].
  destruct (write_edit_consistent n0 xs w (temp1, cor_id, edit) Hw)
    as (w' & Hrun & _ & _ & _ & _ & _ & _ & Hh).
  by exists w'.
Qed.

(** X3.  In a run in which no file operation fails, the histogram file holds,
    for each entry of the counter in insertion order, the label, a tab and
    the count, each entry directly after the other; and the counter is the
    tally of the types of the edits processed. *)
Theorem histogram_file_contents args orig_lines cor_lines w :
  ∃ w', main no_failures annotator args orig_lines cor_lines w = (Ok tt, w')
        ∧ error_count w'
          = tally (map entry_type
                       (run_entries annotator args orig_lines cor_lines))
        ∧ fs w' !! "error_file"
          = Some (str_concat (map (λ kv, kv.1 +:+ tab +:+ pretty kv.2)
                                  (error_count w'))).
Proof.
  destruct (main_no_failures args orig_lines cor_lines w)
    as (w' & Hrun & [Hcount _] & Hhist & _).
  exists w'. split_and!; [done..|]. by rewrite Hhist, Hcount.
Qed.

End NoFailureRun.

(** ** More about the driver *)

Section Triples.
Import ParallelToM2 RunSpec DriverSpec.

Variable env : nat → io_op → option string.

Lemma hoare_conseq {A} (P P' : world → Prop) (m : M A)
    (Q Q' : A → world → Prop) (E E' : exn → world → Prop) :
  hoare P' m Q' E' → (∀ w, P w → P' w) → (∀ a w, Q' a w → Q a w) →
  (∀ e w, E' e w → E e w) → hoare P m Q E.
Proof.
  intros Hm HP HQ HE w Hw. specialize (Hm w (HP w Hw)).
  destruct (m w) as [[a|e] w']; auto.
Qed.

Lemma hoare_ret {A} (P : world → Prop) (a : A) (Q : A → world → Prop) E :
  (∀ w, P w → Q a w) → hoare P (mret a) Q E.
Proof. intros HQ w Hw. by apply HQ. Qed.

Lemma hoare_bind {A B} (P : world → Prop) (m : M A) (k : A → M B)
    (R : A → world → Prop) (Q : B → world → Prop) E :
  hoare P m R E → (∀ a, hoare (R a) (k a) Q E) → hoare P (m ≫= k) Q E.
Proof.
  intros Hm Hk w Hw. specialize (Hm w Hw). unfold mbind, M_bind.
  destruct (m w) as [[a|e] w']; [by apply Hk | done].
Qed.

Lemma hoare_gets {A} (P : world → Prop) (f : world → A)
    (Q : A → world → Prop) E :
  (∀ w, P w → Q (f w) w) → hoare P (gets f) Q E.
Proof. intros HQ w Hw. by apply HQ. Qed.

Lemma hoare_modify (P : world → Prop) (f : world → world)
    (Q : unit → world → Prop) E :
  (∀ w, P w → Q tt (f w)) → hoare P (modify f) Q E.
Proof. intros HQ w Hw. by apply HQ. Qed.

Lemma hoare_raise {A} (P : world → Prop) (e : exn) (Q : A → world → Prop)
    (E : exn → world → Prop) :
  (∀ w, P w → E e w) → hoare P (raise e) Q E.
Proof. intros HE w Hw. by apply HE. Qed.

Lemma hoare_call {A} (P : world → Prop) (r : result A)
    (Q : A → world → Prop) (E : exn → world → Prop) :
  (∀ a w, r = Ok a → P w → Q a w) → (∀ e w, r = Raise e → P w → E e w) →
  hoare P (call r) Q E.
Proof.
  destruct r as [a|e]; intros HQ HE w Hw; unfold call; [by apply HQ|].
  by apply HE.
Qed.

Lemma hoare_for_each {A} (I : world → Prop) (l : list A) (body : A → M unit)
    E :
  (∀ x, x ∈ l → hoare I (body x) (λ _, I) E) →
  hoare I (for_each l body) (λ _, I) E.
Proof.
  induction l as [|x l IH]; intros Hbody; [by apply hoare_ret|].
  cbn [for_each]. eapply hoare_bind; [apply Hbody; by left|].
  intros []. apply IH. intros y Hy. apply Hbody. by right.
Qed.

Lemma hoare_try_except {A} (P : world → Prop) (body : M A)
    (handler : exn → M A) (Q : A → world → Prop)
    (E1 E : exn → world → Prop) :
  hoare P body Q E1 → (∀ e, hoare (E1 e) (handler e) Q E) →
  hoare P (try_except body handler) Q E.
Proof.
  intros Hb Hh w Hw. specialize (Hb w Hw). unfold try_except.
  destruct (body w) as [[a|e] w']; [done | by apply Hh].
Qed.

Lemma hoare_io (op : io_op) (act : world → world) (P : world → Prop)
    (Q : unit → world → Prop) (E : exn → world → Prop) :
  (∀ w msg, P w → env (io_clock w) op = Some msg →
            E (Exception msg) (tick (log_io_error op w))) →
  (∀ w, P w → env (io_clock w) op = None → Q tt (act (tick w))) →
  hoare P (io env op act) Q E.
Proof.
  intros HE HQ w Hw. unfold io.
  destruct (env (io_clock w) op) as [msg|] eqn:Henv; auto.
Qed.

Lemma hoare_open_w (p : string) (P : world → Prop) (Q : nat → world → Prop)
    (E : exn → world → Prop) :
  (∀ w msg, P w → env (io_clock w) (Open p) = Some msg →
            E (Exception msg) (tick (log_io_error (Open p) w))) →
  (∀ w, P w → env (io_clock w) (Open p) = None →
        Q (length (handles w))
          (set_handles
             (handles w ++ [{| f_name := p; f_closed := false |}])
             (set_fs (<[p := ""]> (fs w)) (tick w)))) →
  hoare P (open_w env p) Q E.
Proof.
  intros HE HQ w Hw. unfold open_w, mbind, M_bind, io, gets, mret, M_ret.
  destruct (env (io_clock w) (Open p)) as [msg|] eqn:Henv; [by apply HE|].
  cbn [handles set_handles set_fs tick]. rewrite length_app. cbn [length].
  replace (length (handles w) + 1 - 1) with (length (handles w)) by lia.
  exact (HQ w Hw Henv).
Qed.

Lemma hoare_write (h : nat) (data : string) (P : world → Prop)
    (Q : unit → world → Prop) (E : exn → world → Prop) :
  (∀ w, P w → ∃ f, handles w !! h = Some f ∧ f_closed f = false) →
  (∀ w f msg, P w → handles w !! h = Some f →
              env (io_clock w) (Write (f_name f) data) = Some msg →
              E (Exception msg)
                (tick (log_io_error (Write (f_name f) data) w))) →
  (∀ w f, P w → handles w !! h = Some f →
          env (io_clock w) (Write (f_name f) data) = None →
          Q tt (set_fs (fs_append (f_name f) data (fs w)) (tick w))) →
  hoare P (write env h data) Q E.
Proof.
  intros Hopen HE HQ w Hw. destruct (Hopen w Hw) as (f & Hf & Hc).
  unfold write, mbind, M_bind, gets. rewrite Hf, Hc. unfold io.
  destruct (env (io_clock w) (Write (f_name f) data)) as [msg|] eqn:Henv.
  - exact (HE w f msg Hw Hf Henv).
  - exact (HQ w f Hw Hf Henv).
Qed.

(** The operations on files leave a property alone that is independent of
    what they change, whether they return or raise. *)
Lemma io_keeps (P : world → Prop) (op : io_op) (act : world → world) :
  io_independent P → (∀ w, P w → P (act w)) →
  hoare P (io env op act) (λ _, P) (λ _, P).
Proof.
  intros HP Hact. apply hoare_io.
  - intros w msg Hw _. destruct (HP w Hw) as (_ & Hlog & _).
    by apply HP, Hlog.
  - intros w Hw _. by apply Hact, HP.
Qed.

Lemma makedirs_keeps (P : world → Prop) (p : string) :
  io_independent P → hoare P (makedirs env p) (λ _, P) (λ _, P).
Proof. intros HP. apply io_keeps; [done|]. intros w Hw. by apply HP. Qed.

Lemma open_w_keeps (P : world → Prop) (p : string) :
  io_independent P → hoare P (open_w env p) (λ _, P) (λ _, P).
Proof.
  intros HP. apply hoare_open_w.
  - intros w msg Hw _. destruct (HP w Hw) as (_ & Hlog & _).
    by apply HP, Hlog.
  - intros w Hw _. apply HP, HP. by apply HP.
Qed.

Lemma write_keeps (P : world → Prop) (h : nat) (data : string) :
  io_independent P → hoare P (write env h data) (λ _, P) (λ _, P).
Proof.
  intros HP w Hw. unfold write, mbind, M_bind, gets, raise.
  destruct (handles w !! h) as [f|]; [|done].
  destruct (f_closed f); [done|].
  by apply (io_keeps P _ _ HP); [intros w0 Hw0; apply HP|].
Qed.

Lemma open_at_same w w' h :
  handles w' = handles w → open_at w h → open_at w' h.
Proof. intros Hh. unfold open_at. by rewrite Hh. Qed.

Lemma open_at_grow w w' l h :
  handles w' = handles w ++ l → open_at w h → open_at w' h.
Proof.
  intros Hh (f & Hf & Hc). exists f. split; [|done].
  rewrite Hh, lookup_app_l; [done | by eapply lookup_lt_Some].
Qed.

Lemma open_at_new w w' p :
  handles w' = handles w ++ [{| f_name := p; f_closed := false |}] →
  open_at w' (length (handles w)).
Proof.
  intros Hh. exists {| f_name := p; f_closed := false |}. split; [|done].
  rewrite Hh, lookup_app_r by lia. by rewrite Nat.sub_diag.
Qed.

Lemma handles_ok_grow w w' l :
  handles w' = handles w ++ l → out_files w' = out_files w →
  handles_ok w → handles_ok w'.
Proof.
  intros Hh Ho Hok k f0 f1 f2 Hget. rewrite Ho in Hget.
  destruct (Hok k f0 f1 f2 Hget) as (? & ? & ?).
  split_and!; by eapply open_at_grow.
Qed.

Lemma handles_ok_same w w' :
  handles w' = handles w → out_files w' = out_files w →
  handles_ok w → handles_ok w'.
Proof.
  intros Hh Ho. apply (handles_ok_grow w w' []); [|done].
  by rewrite app_nil_r.
Qed.

Lemma raised_by_env_io (op : io_op) (w : world) (msg : string) :
  env (io_clock w) op = Some msg →
  raised_by_env env (Exception msg) (tick (log_io_error op w)).
Proof.
  intros Henv. exists (io_clock w), op. cbn [io_errors io_clock tick log_io_error].
  by rewrite last_snoc.
Qed.

(** The loop body counts the edit before it touches any file. *)
Lemma write_edit_count temp1 cor_id e (c : list (string * nat)) :
  hoare (λ w, error_count w = c) (write_edit env temp1 cor_id e)
        (λ _ w, error_count w = counter_incr c (type e))
        (λ _ w, error_count w = counter_incr c (type e)).
Proof.
  set (P := λ w : world, error_count w = counter_incr c (type e)).
  assert (HP : io_independent P) by (by intros w Hw).
  unfold write_edit.
  eapply hoare_bind with (R := λ _, P).
  { apply hoare_modify. intros w Hw. unfold P. cbn. by rewrite Hw. }
  intros []. eapply hoare_bind with (R := λ _, P).
  { by apply hoare_gets. }
  intros present. eapply hoare_bind with (R := λ _, P).
  { destruct present; cbn [negb]; [by apply hoare_ret|].
    eapply hoare_bind with (R := λ _, P); [by apply makedirs_keeps|].
    intros []. eapply hoare_bind with (R := λ _, P); [by apply open_w_keeps|].
    intros f0. eapply hoare_bind with (R := λ _, P); [by apply open_w_keeps|].
    intros f1. eapply hoare_bind with (R := λ _, P); [by apply open_w_keeps|].
    intros f2. by apply hoare_modify. }
  intros []. eapply hoare_bind with (R := λ _, P).
  { by apply hoare_gets. }
  intros [[[f0 f1] f2]|]; [|by apply hoare_raise].
  eapply hoare_bind with (R := λ _, P); [by apply write_keeps|].
  intros []. eapply hoare_bind with (R := λ _, P); [by apply write_keeps|].
  intros []. eapply hoare_bind with (R := λ _, P); [by apply write_keeps|].
  intros []. destruct (to_srctrg e) as [src trg].
  eapply hoare_bind with (R := λ _, P); [by apply write_keeps|].
  intros []. by apply write_keeps.
Qed.

(** X12.  The loop body counts an edit before it opens or writes any file:
    in every environment, whether the operations on the files return or
    raise, the state it leaves has the count of the edit's type incremented
    by one.  The histogram therefore also counts the edits whose annotation
    could not be written. *)
Theorem edit_counted_before_written (temp1 : list Word) (cor_id : nat)
    (edit : Edit) (w : world) :
  error_count (write_edit env temp1 cor_id edit w).2
  = counter_incr (error_count w) (type edit)
  ∧ counter_get (error_count (write_edit env temp1 cor_id edit w).2)
                (type edit)
    = counter_get (error_count w) (type edit) + 1.
Proof.
  pose proof (write_edit_count temp1 cor_id edit (error_count w) w eq_refl)
    as Hc.
  assert (Heq : error_count (write_edit env temp1 cor_id edit w).2
                = counter_incr (error_count w) (type edit)).
  { by destruct (write_edit env temp1 cor_id edit w) as [[[]|x] w']. }
  split; [done|]. rewrite Heq. apply counter_get_incr_eq.
Qed.

(** Writing through a file recorded in [out_files]: the file is open, so
    the only way to raise is the environment's. *)
Lemma write_recorded k f0 f1 f2 h data :
  h = f0 ∨ h = f1 ∨ h = f2 →
  let P := λ w, handles_ok w ∧ dict_get (out_files w) k = Some (f0, f1, f2) in
  hoare P (write env h data) (λ _, P)
        (λ x w, handles_ok w ∧ raised_by_env env x w).
Proof.
  intros Hh P. apply hoare_write.
  - intros w [Hok Hget]. destruct (Hok k f0 f1 f2 Hget) as (? & ? & ?).
    by destruct Hh as [->|[->| ->]].
  - intros w f msg [Hok _] _ Henv. split.
    + by apply (handles_ok_same w).
    + by apply raised_by_env_io.
  - intros w f [Hok Hget] _ _. split; [by apply (handles_ok_same w) | done].
Qed.

Lemma open_w_recorded p (R : world → Prop) :
  (∀ w w' l, handles w' = handles w ++ l → out_files w' = out_files w →
             R w → R w') →
  hoare (λ w, handles_ok w ∧ R w) (open_w env p)
        (λ h w, handles_ok w ∧ (R w ∧ open_at w h))
        (λ x w, handles_ok w ∧ raised_by_env env x w).
Proof.
  intros HR. apply hoare_open_w.
  - intros w msg [Hok _] Henv. split.
    + by apply (handles_ok_same w).
    + by apply raised_by_env_io.
  - intros w [Hok Hw] _. split_and!.
    + by eapply (handles_ok_grow w).
    + by eapply (HR w).
    + by eapply (open_at_new w).
Qed.

(** The loop body keeps the recorded files open and raises nothing of its
    own. *)
Lemma write_edit_handles temp1 cor_id e :
  hoare handles_ok (write_edit env temp1 cor_id e) (λ _, handles_ok)
        (λ x w, handles_ok w ∧ raised_by_env env x w).
Proof.
  set (k := file_name_of (type e)).
  set (E := λ (x : exn) w, handles_ok w ∧ raised_by_env env x w).
  unfold write_edit. fold k.
  eapply hoare_bind with (R := λ _, handles_ok).
  { apply hoare_modify. intros w Hw. by apply (handles_ok_same w). }
  intros []. eapply hoare_bind
    with (R := λ present w, handles_ok w
                            ∧ present = dict_has (out_files w) k).
  { by apply hoare_gets. }
  intros present. eapply hoare_bind
    with (R := λ _ w, handles_ok w ∧ dict_has (out_files w) k = true).
  { destruct present; cbn [negb]; [by apply hoare_ret; intros w [? <-]|].
    eapply hoare_bind with (R := λ _ w, handles_ok w ∧ True).
    { apply hoare_io.
      - intros w msg [Hok _] Henv. split.
        + by apply (handles_ok_same w).
        + by apply raised_by_env_io.
      - intros w [Hok _] _. split; [by apply (handles_ok_same w) | done]. }
    intros []. eapply hoare_bind; [by apply open_w_recorded|].
    intros f0. eapply hoare_bind.
    { apply (open_w_recorded _ (λ w, True ∧ open_at w f0)).
      intros w w' l Hh _ [_ H0]. split; [done | by eapply open_at_grow]. }
    intros f1. eapply hoare_bind.
    { apply (open_w_recorded _
               (λ w, (True ∧ open_at w f0) ∧ open_at w f1)).
      intros w w' l Hh _ [[_ H0] H1].
      split_and!; [done | by eapply open_at_grow..]. }
    intros f2. apply hoare_modify.
    intros w [Hok [[[_ H0] H1] H2]]. split.
    - intros k' g0 g1 g2. cbn [out_files set_out_files].
      destruct (decide (k = k')) as [<-|Hne].
      + rewrite dict_get_set_eq. intros [= <- <- <-].
        split_and!; by eapply open_at_same.
      + rewrite dict_get_set_ne by done. intros Hget.
        destruct (Hok k' g0 g1 g2 Hget) as (? & ? & ?).
        split_and!; by eapply open_at_same.
    - cbn [out_files set_out_files]. rewrite dict_has_set.
      by rewrite bool_decide_eq_true_2. }
  intros []. eapply hoare_bind
    with (R := λ o w, handles_ok w ∧ dict_has (out_files w) k = true
                      ∧ o = dict_get (out_files w) k).
  { apply hoare_gets. by intros w [? ?]. }
  intros [[[f0 f1] f2]|].
  - eapply hoare_conseq
      with (P' := λ w, handles_ok w
                       ∧ dict_get (out_files w) k = Some (f0, f1, f2))
           (Q' := λ _ w, handles_ok w
                         ∧ dict_get (out_files w) k = Some (f0, f1, f2))
           (E' := E);
      [| by intros w (? & _ & ?) | by intros _ w [? _] | done].
    eapply hoare_bind; [apply (write_recorded k f0 f1 f2); by left|].
    intros []. eapply hoare_bind; [apply (write_recorded k f0 f1 f2); by left|].
    intros []. eapply hoare_bind; [apply (write_recorded k f0 f1 f2); by left|].
    intros []. destruct (to_srctrg e) as [src trg].
    eapply hoare_bind;
      [apply (write_recorded k f0 f1 f2); right; by left|].
    intros []. apply (write_recorded k f0 f1 f2). right; by right.
  - intros w (_ & Hhas & Hget). apply dict_has_get in Hhas as [v Hv].
    congruence.
Qed.

(** X13.  The loop body raises no error of its own.  From a state in which
    the files recorded in [out_files] are open, and in every environment:
    it leaves them open, whether it returns or raises; and when it raises,
    the exception is the error with which the environment failed the
    operation attempted last --- never a [KeyError] on [out_m2], nor a
    write to a closed file. *)
Theorem write_edit_raises_only_io_errors (temp1 : list Word) (cor_id : nat)
    (edit : Edit) (w : world) :
  handles_ok w →
  match write_edit env temp1 cor_id edit w with
  | (Ok _, w') => handles_ok w'
  | (Raise x, w') => handles_ok w' ∧ raised_by_env env x w'
  end.
Proof. apply write_edit_handles. Qed.

Variable annotator : Annotator.

Lemma print_handles s :
  hoare handles_ok (print s) (λ _, handles_ok) (λ _ _, False).
Proof. apply hoare_modify. intros w Hw. by apply (handles_ok_same w). Qed.

Lemma process_cor_handles temp1 o args cor_id c :
  hoare handles_ok (process_cor env annotator temp1 o args cor_id c)
        (λ _, handles_ok) (λ _ _, False).
Proof.
  unfold process_cor.
  eapply hoare_try_except with (E1 := λ _, handles_ok);
    [|intros x; apply print_handles].
  eapply hoare_bind with (R := λ _, handles_ok).
  { by apply hoare_call. }
  intros edits. apply hoare_for_each. intros e _.
  eapply hoare_conseq; [apply write_edit_handles | done.. |].
  by intros x w [? _].
Qed.

Lemma process_lines_handles args lines :
  hoare handles_ok (process_lines env annotator args lines)
        (λ _, handles_ok) (λ _ _, False).
Proof.
  unfold process_lines.
  eapply hoare_try_except with (E1 := λ _, handles_ok);
    [|intros x; apply print_handles].
  eapply hoare_bind with (R := λ _, handles_ok).
  { by apply hoare_call. }
  intros [|d ds]; [by apply hoare_raise|].
  unfold process_sentences. apply hoare_for_each. intros [i c] _.
  eapply hoare_conseq; [apply process_cor_handles | done..].
Qed.

(** X14.  The files recorded in [out_files] stay open while the line groups
    are processed, in every environment and whatever is raised on the way:
    from a state in which they are open (as at the start of the loop, where
    [out_files] is empty), the loop over the line groups returns normally
    and leaves every recorded file open for the [finally] clause to
    close. *)
Theorem recorded_files_stay_open (args : Args) (groups : list (list string))
    (w : world) :
  handles_ok w →
  ∃ w', for_each groups (process_lines env annotator args) w = (Ok tt, w')
        ∧ handles_ok w'.
Proof.
  intros Hw.
  pose proof (hoare_for_each handles_ok groups
                (process_lines env annotator args) (λ _ _, False)
                (λ lines _, process_lines_handles args lines) w Hw) as H.
  destruct (for_each groups (process_lines env annotator args) w)
    as [[[]|x] w']; [by exists w' | done].
Qed.

(** Closing never raises when the environment fails no [close]. *)
Lemma close_returns h w :
  (∀ n p, env n (Close p) = None) →
  ∃ w', close env h w = (Ok tt, w').
Proof.
  intros Henv. unfold close, mbind, M_bind, gets, modify, io, mret, M_ret.
  destruct (handles w !! h) as [f|]; [destruct (f_closed f)|];
    rewrite ?Henv; by eexists.
Qed.

Lemma close_out_files_returns w :
  (∀ n p, env n (Close p) = None) →
  ∃ w', close_out_files env w = (Ok tt, w').
Proof.
  intros Henv. unfold close_out_files. unfold mbind at 1, M_bind at 1, gets.
  apply for_each_total. intros [k [[f0 f1] f2]] w0. cbn [snd].
  destruct (close_returns f0 w0 Henv) as (w1 & H1).
  destruct (close_returns f1 w1 Henv) as (w2 & H2).
  destruct (close_returns f2 w2 Henv) as (w3 & H3).
  exists w3.
  by rewrite (bind_ok _ _ w0 tt w1 H1), (bind_ok _ _ w1 tt w2 H2).
Qed.

Lemma write_counts_returns h (counts : list (string * nat)) :
  (∀ n data, env n (Write "error_file" data) = None) →
  ∀ w, handles w !! h = Some {| f_name := "error_file"; f_closed := false |} →
    ∃ w', for_each counts
            (λ kv, write env h (kv.1 +:+ tab +:+ pretty kv.2)) w
          = (Ok tt, w').
Proof.
  intros Henv. induction counts as [|kv counts IH]; intros w Hh;
    [by eexists|].
  rewrite for_each_cons.
  unfold write at 1. unfold mbind at 1, M_bind at 1, gets. rewrite Hh.
  cbn [f_closed f_name]. unfold io. rewrite Henv. by apply IH.
Qed.

Lemma save_error_counts_returns w :
  (∀ n op, cleanup_or_histogram op → env n op = None) →
  ∃ w', save_error_counts env w = (Ok tt, w').
Proof.
  intros Henv. unfold save_error_counts. unfold mbind at 1, M_bind at 1.
  unfold open_w at 1. unfold mbind at 1 2, M_bind at 1 2, io, gets, mret, M_ret.
  rewrite (Henv _ (Open "error_file")) by done.
  cbn [handles set_handles set_fs tick]. rewrite length_app. cbn [length].
  replace (length (handles w) + 1 - 1) with (length (handles w)) by lia.
  unfold try_finally, mbind, M_bind, gets.
  set (w1 := set_handles _ _).
  destruct (write_counts_returns (length (handles w)) (error_count w1))
    with (w := w1) as (w2 & ->).
  - intros n data. by apply Henv.
  - unfold w1. cbn [handles set_handles].
    rewrite lookup_app_r by lia. by rewrite Nat.sub_diag.
  - destruct (close_returns (length (handles w)) w2) as (w3 & ->).
    + intros n p. by apply Henv.
    + by exists w3.
Qed.

(** X15.  Failures that never end a run.  Provided [parse_args],
    [Annotator()], opening the input files and reading their lines raise
    nothing and [print] does not fail (the definition of [main] starts with
    the lines read), and in an environment that fails no [close] and no
    operation on [error_file], the rest of [main] --- the loop over the
    line groups, the [finally] clause and the histogram --- returns
    normally whatever else fails: making directories, opening and writing
    the per-type files, and what [parse] and [annotate] raise never end the
    run. *)
Theorem per_type_and_annotator_failures_never_end_run (args : Args)
    (orig_lines : list string) (cor_lines : list (list string)) (w : world) :
  (∀ n op, cleanup_or_histogram op → env n op = None) →
  ∃ w', main env annotator args orig_lines cor_lines w = (Ok tt, w').
Proof.
  intros Henv. unfold main, mbind, M_bind, print, modify, try_finally.
  set (w0 := set_out_files [] _).
  destruct (for_each_total (zip_files orig_lines cor_lines)
              (process_lines env annotator args)
              (process_lines_total env annotator args) w0) as (w1 & ->).
  destruct (close_out_files_returns w1) as (w2 & ->).
  { intros n p. by apply Henv. }
  by apply save_error_counts_returns.
Qed.

(** X16.  A run that cannot open [error_file] raises, but only at the very
    end: when the environment fails no [close] and fails every attempt to
    open [error_file] with [msg], [main] raises that error, after the loop
    over the line groups and the [finally] clause have completed. *)
Theorem main_aborts_when_error_file_cannot_be_opened (args : Args)
    (orig_lines : list string) (cor_lines : list (list string)) (w : world)
    (msg : string) :
  (∀ n p, env n (Close p) = None) →
  (∀ n, env n (Open "error_file") = Some msg) →
  ∃ w1 w2,
    for_each (zip_files orig_lines cor_lines)
             (process_lines env annotator args) (loop_entry w) = (Ok tt, w1)
    ∧ close_out_files env w1 = (Ok tt, w2)
    ∧ main env annotator args orig_lines cor_lines w
      = (Raise (Exception msg), tick (log_io_error (Open "error_file") w2)).
Proof.
  intros Hclose Hopen. unfold main, mbind, M_bind, print, modify, try_finally.
  set (w0 := set_out_files [] _).
  assert (Hw0 : w0 = loop_entry w).
  { unfold w0, loop_entry, set_out_files, set_stdout, set_error_count.
    cbn. by rewrite <- app_assoc. }
  rewrite Hw0.
  destruct (for_each_total (zip_files orig_lines cor_lines)
              (process_lines env annotator args)
              (process_lines_total env annotator args) (loop_entry w))
    as (w1 & H1).
  destruct (close_out_files_returns w1 Hclose) as (w2 & H2).
  exists w1, w2. rewrite H1, H2. split_and!; [done..|].
  unfold save_error_counts, open_w, mbind, M_bind, io.
  by rewrite Hopen.
Qed.

(** The operations on files do not print. *)
Lemma close_keeps (P : world → Prop) (h : nat) :
  io_independent P → hoare P (close env h) (λ _, P) (λ _, P).
Proof.
  intros HP w Hw. unfold close, mbind, M_bind, gets, modify, mret, M_ret.
  destruct (handles w !! h) as [f|]; [|done].
  destruct (f_closed f); [done|].
  apply (io_keeps P _ _ HP); [done | by apply HP].
Qed.

Lemma for_each_keeps {A} (P : world → Prop) (l : list A) (body : A → M unit) :
  (∀ x, hoare P (body x) (λ _, P) (λ _, P)) →
  hoare P (for_each l body) (λ _, P) (λ _, P).
Proof. intros Hbody. apply hoare_for_each. intros x _. apply Hbody. Qed.

Lemma close_out_files_keeps (P : world → Prop) :
  io_independent P → hoare P (close_out_files env) (λ _, P) (λ _, P).
Proof.
  intros HP. unfold close_out_files.
  eapply hoare_bind with (R := λ _, P); [by apply hoare_gets|].
  intros out. apply for_each_keeps. intros [k [[f0 f1] f2]]. cbn [snd].
  eapply hoare_bind with (R := λ _, P); [by apply close_keeps|].
  intros []. eapply hoare_bind with (R := λ _, P); [by apply close_keeps|].
  intros []. by apply close_keeps.
Qed.

Lemma save_error_counts_keeps (P : world → Prop) :
  io_independent P → hoare P (save_error_counts env) (λ _, P) (λ _, P).
Proof.
  intros HP. unfold save_error_counts.
  eapply hoare_bind with (R := λ _, P); [by apply open_w_keeps|].
  intros h w Hw. unfold try_finally.
  assert (Hbody : hoare P
            (counts ← gets error_count;
             for_each counts
               (λ kv, write env h (kv.1 +:+ tab +:+ pretty kv.2)))
            (λ _, P) (λ _, P)).
  { eapply hoare_bind with (R := λ _, P); [by apply hoare_gets|].
    intros counts. apply for_each_keeps. intros kv. by apply write_keeps. }
  specialize (Hbody w Hw).
  destruct (_ ≫= _) as [r w1] in Hbody |- *.
  assert (Hw1 : P w1) by (by destruct r).
  pose proof (close_keeps P h HP w1 Hw1) as Hc.
  destruct (close env h w1) as [[[]|x] w2]; by destruct r.
Qed.

End Triples.

Section Ordering.
Import ParallelToM2 RunSpec DriverSpec DriverTactics.

Variable env : nat → io_op → option string.

















Variable annotator : Annotator.









End Ordering.

Section RunLog.
Import ParallelToM2 RunSpec DriverSpec Samples.

Variable annotator : Annotator.

(** A loop that writes the entries [g a] and prints the lines [m a] for
    each element [a]. *)
Lemma for_each_logged {A} n0 (l : list A) (body : A → M unit)
    (g : A → list entry) (m : A → list string) :
  (∀ a xs w, consistent n0 xs w →
     ∃ w', body a w = (Ok tt, w') ∧ consistent n0 (xs ++ g a) w'
           ∧ stdout w' = stdout w ++ m a) →
  ∀ xs w, consistent n0 xs w →
    ∃ w', for_each l body w = (Ok tt, w')
          ∧ consistent n0 (xs ++ concat (map g l)) w'
          ∧ stdout w' = stdout w ++ concat (map m l).
Proof.
  intros Hbody. induction l as [|a l IH]; intros xs w Hw.
  - exists w. cbn. by rewrite !app_nil_r.
  - destruct (Hbody a xs w Hw) as (w1 & H1 & Hw1 & Ho1).
    destruct (IH _ _ Hw1) as (w2 & H2 & Hw2 & Ho2).
    exists w2. rewrite for_each_cons, H1, H2. split; [done|].
    cbn [map concat]. rewrite !app_assoc. split; [done|].
    by rewrite Ho2, Ho1.
Qed.

Lemma concat_map_nil {A B} (l : list A) :
  concat (map (λ _, @nil B) l) = [].
Proof. induction l as [|a l IH]; [done|]. cbn. exact IH. Qed.

Lemma concat_map_singleton {A B} (f : A → B) (l : list A) :
  concat (map (λ a, [f a]) l) = map f l.
Proof. induction l as [|a l IH]; [done|]. cbn. by rewrite IH. Qed.

Lemma map_snd_imap {A B} (f : A → B) (l : list A) :
  ∀ g : nat → nat, map (λ ic, f ic.2) (imap (λ i a, (g i, a)) l) = map f l.
Proof.
  induction l as [|a l IH]; intros g; [done|].
  cbn [imap map snd]. f_equal. apply (IH (g ∘ S)).
Qed.

Lemma process_cor_logged n0 o args cor_id c xs w :
  consistent n0 xs w →
  ∃ w', process_cor no_failures annotator (all_words o) o args cor_id c w
        = (Ok tt, w')
        ∧ consistent n0 (xs ++ cor_entries annotator o args cor_id c) w'
        ∧ stdout w' = stdout w ++ cor_log annotator o args c.
Proof.
  intros Hw. unfold process_cor, cor_entries, cor_log, try_except, mbind,
    M_bind, call.
  destruct (annotate annotator o c (lev args) (merge args)) as [edits|e].
  - destruct (for_each_logged n0 edits
                (write_edit no_failures (all_words o) cor_id)
                (λ e, [(all_words o, cor_id, e)]) (λ _, []))
      with (xs := xs) (w := w) as (w' & Hrun & Hw' & Ho); [|done|].
    + intros e ys w0 Hw0.
      destruct (write_edit_consistent n0 ys w0 (all_words o, cor_id, e) Hw0)
        as (w1 & H1 & Hw1 & _ & Ho1 & _).
      exists w1. by rewrite Ho1, app_nil_r.
    + exists w'. rewrite Hrun. rewrite concat_map_singleton in Hw'.
      by rewrite concat_map_nil in Ho.
  - eexists. split_and!; [reflexivity | | done].
    rewrite app_nil_r. by apply consistent_set_stdout.
Qed.

Lemma process_lines_logged n0 args lines xs w :
  consistent n0 xs w →
  ∃ w', process_lines no_failures annotator args lines w = (Ok tt, w')
        ∧ consistent n0 (xs ++ lines_entries annotator args lines) w'
        ∧ stdout w' = stdout w ++ lines_log annotator args lines.
Proof.
  intros Hw. unfold process_lines, lines_entries, lines_log, try_except,
    mbind, M_bind, call.
  destruct (parse_all annotator (tok args) lines) as [[|d ds]|e].
  - eexists. split_and!; [reflexivity | | done].
    rewrite app_nil_r. by apply consistent_set_stdout.
  - unfold process_sentences, sentences_entries.
    destruct (for_each_logged n0 (imap pair ds)
                (λ ic, process_cor no_failures annotator (all_words d) d args
                                   ic.1 ic.2)
                (λ ic, cor_entries annotator d args ic.1 ic.2)
                (λ ic, cor_log annotator d args ic.2))
      with (xs := xs) (w := w) as (w' & Hrun & Hw' & Ho); [|done|].
    + intros [i c] ys w0 Hw0. by apply process_cor_logged.
    + exists w'. rewrite Hrun. split_and!; [done..|].
      rewrite Ho. f_equal. f_equal.
      apply (map_snd_imap (cor_log annotator d args) ds id).
  - eexists. split_and!; [reflexivity | | done].
    rewrite app_nil_r. by apply consistent_set_stdout.
Qed.

(** X17.  What a run prints when no file operation fails: the two banners,
    then one line ["Failed to process line: e"] for each line group of which
    a line fails to parse and one line ["Failed to align texts: e"] for each
    corrected text whose annotation raises, in the order of the input, and
    nothing else. *)
Theorem run_prints_banners_and_failures (args : Args)
    (orig_lines : list string) (cor_lines : list (list string)) (w : world) :
  ∃ w', main no_failures annotator args orig_lines cor_lines w = (Ok tt, w')
        ∧ stdout w'
          = stdout w
            ++ ["Loading resources..."; "Processing parallel files..."]
            ++ run_log annotator args orig_lines cor_lines.
Proof.
  unfold main, mbind, M_bind, print, modify, try_finally.
  set (w0 := set_out_files [] _).
  destruct (for_each_logged (length (handles w))
              (zip_files orig_lines cor_lines)
              (process_lines no_failures annotator args)
              (lines_entries annotator args) (lines_log annotator args))
    with (xs := @nil entry) (w := w0) as (w1 & Hloop & _ & Ho1).
  { intros lines ys w' Hw'. by apply process_lines_logged. }
  { by apply (consistent_nil w0). }
  rewrite Hloop.
  set (P := λ w' : world, stdout w' = stdout w1).
  assert (HP : io_independent P) by (by intros w' Hw').
  pose proof (close_out_files_keeps no_failures P HP w1 eq_refl) as Hc.
  destruct (close_out_files_effect w1) as (w2 & Hclose & _).
  rewrite Hclose in Hc |- *.
  pose proof (save_error_counts_keeps no_failures P HP w2 Hc) as Hs.
  destruct (save_error_counts_ok w2) as (w3 & Hsave & _).
  rewrite Hsave in Hs |- *. exists w3. split; [done|].
  unfold P in Hs. rewrite Hs, Ho1. unfold w0, run_log. cbn [stdout set_out_files set_stdout set_error_count].
  by rewrite <- !app_assoc.
Qed.

End RunLog.

Section ZipFiles.
Import ParallelToM2.

Lemma mapM_lookup_tail (i : nat) (ls : list (list string)) :
  mapM (λ c, c !! i) (map tail ls) = mapM (λ c, c !! S i) ls.
Proof.
  induction ls as [|c ls IH]; [done|].
  cbn [map mapM]. rewrite IH. by destruct c.
Qed.

Lemma mapM_head_lookup (ls : list (list string)) :
  mapM head ls = mapM (λ c, c !! 0) ls.
Proof.
  induction ls as [|c ls IH]; [done|].
  cbn [mapM]. rewrite IH. by destruct c.
Qed.

Lemma mapM_head_None (i : nat) (ls : list (list string)) :
  mapM head ls = None → mapM (λ c, c !! i) ls = None.
Proof.
  induction ls as [|c ls IH]; [done|]. cbn [mapM].
  destruct c as [|x c]; [done|]. cbn.
  destruct (mapM head ls); [done|]. intros _. rewrite IH by done.
  by destruct ((x :: c) !! i).
Qed.

Lemma min_lengths_tail (n : nat) (ls : list (list string)) (hs : list string) :
  mapM head ls = Some hs →
  foldr Nat.min (S n) (map length ls)
  = S (foldr Nat.min n (map length (map tail ls))).
Proof.
  revert hs. induction ls as [|c ls IH]; intros hs; [done|].
  cbn [mapM map foldr]. destruct c as [|x c]; [done|]. cbn.
  destruct (mapM head ls) as [hs'|] eqn:Hhs; [|done]. intros _.
  by rewrite (IH hs').
Qed.

Lemma min_lengths_empty (n : nat) (ls : list (list string)) :
  mapM head ls = None → foldr Nat.min n (map length ls) = 0.
Proof.
  induction ls as [|c ls IH]; [done|]. cbn [mapM map foldr].
  destruct c as [|x c]; [done|]. cbn.
  destruct (mapM head ls); [done|]. intros _. rewrite IH by done. lia.
Qed.

(** X7.  [zip( *files)] stops at the end of the shortest file: the run
    processes as many line groups as the shortest of the input files has
    lines, the lines beyond that in longer files are never read into a
    group, and the [i]-th group holds the [i]-th line of the original file
    followed by the [i]-th line of each corrected file, in order. *)
Theorem zip_files_groups (orig_lines : list string)
    (cor_lines : list (list string)) :
  length (zip_files orig_lines cor_lines)
  = foldr Nat.min (length orig_lines) (map length cor_lines)
  ∧ ∀ i, zip_files orig_lines cor_lines !! i
         = (l ← orig_lines !! i;
            ls ← mapM (λ c, c !! i) cor_lines;
            Some (l :: ls)).
Proof.
  split.
  - revert cor_lines. induction orig_lines as [|l o IH]; intros cors.
    + cbn. induction cors as [|c cors IHc]; [done|]. cbn. rewrite <- IHc. lia.
    + cbn [zip_files length]. destruct (mapM head cors) as [hs|] eqn:Hhs.
      * cbn [length]. rewrite IH. symmetry. by eapply min_lengths_tail.
      * cbn. symmetry. by apply min_lengths_empty.
  - revert cor_lines. induction orig_lines as [|l o IH]; intros cors i.
    + by destruct i.
    + cbn [zip_files]. destruct (mapM head cors) as [hs|] eqn:Hhs.
      * destruct i as [|i].
        -- cbn. by rewrite <- mapM_head_lookup, Hhs.
        -- cbn [lookup list_lookup]. rewrite IH, mapM_lookup_tail. done.
      * rewrite (mapM_head_None i cors Hhs).
        by destruct ((l :: o) !! i).
Qed.

End ZipFiles.

Section Counter.
Import ParallelToM2 RunSpec DriverSpec.

Lemma dict_set_keys {V} (d : list (string * V)) k v :
  (dict_set d k v).*1 = if decide (k ∈ d.*1) then d.*1 else d.*1 ++ [k].
Proof.
  induction d as [|[k0 v0] d IH]; cbn [dict_set fmap list_fmap fst].
  - rewrite decide_False; [done | apply not_elem_of_nil].
  - destruct (decide (k0 = k)) as [->|Hne].
    + rewrite bool_decide_eq_true_2 by done.
      rewrite decide_True by (by left). done.
    + rewrite bool_decide_eq_false_2 by done. cbn [fmap list_fmap fst].
      rewrite IH. destruct (decide (k ∈ d.*1)) as [Hin|Hnin].
      * rewrite decide_True by (by right). done.
      * rewrite decide_False; [done|]. rewrite not_elem_of_cons. by split.
Qed.

Lemma tally_from_keys (labels : list string) :
  ∀ c : list (string * nat),
    (foldl counter_incr c labels).*1
    = c.*1 ++ filter (λ y, y ∉ c.*1) (first_occurrences labels).
Proof.
  induction labels as [|x l IH]; intros c.
  - cbn. by rewrite app_nil_r.
  - cbn [foldl first_occurrences]. rewrite IH. unfold counter_incr.
    rewrite dict_set_keys. destruct (decide (x ∈ c.*1)) as [Hin|Hnin].
    + rewrite filter_cons_False by tauto. f_equal.
      rewrite list_filter_filter. apply list_filter_iff.
      intros y. split; [|by intros [? ?]].
      intros Hy. split; [done|]. by intros ->.
    + rewrite filter_cons_True by done. rewrite <- app_assoc. cbn [app].
      do 2 f_equal. rewrite list_filter_filter. apply list_filter_iff.
      intros y. rewrite not_elem_of_app, list_elem_of_singleton. tauto.
Qed.

Lemma tally_from_count (labels : list string) (t : string) :
  ∀ c : list (string * nat),
    counter_get (foldl counter_incr c labels) t
    = counter_get c t + length (filter (λ t', t' = t) labels).
Proof.
  induction labels as [|x l IH]; intros c.
  - rewrite filter_nil. cbn [foldl length]. lia.
  - cbn [foldl]. rewrite IH. destruct (decide (x = t)) as [->|Hne].
    + rewrite filter_cons_True by done. rewrite counter_get_incr_eq.
      cbn [length]. lia.
    + rewrite filter_cons_False by done. by rewrite counter_get_incr_ne.
Qed.

Lemma first_occurrences_NoDup (l : list string) : NoDup (first_occurrences l).
Proof.
  induction l as [|x l IH]; cbn [first_occurrences]; [constructor|].
  apply NoDup_cons. split; [|by apply NoDup_filter].
  rewrite list_elem_of_filter. tauto.
Qed.

(** X8.  The counter when no file operation fails: its keys are the
    distinct error types of the edits processed, in the order of their first
    occurrence and without repetition, and the count of a type is the number
    of edits of that type. *)
Theorem counter_counts_edits (annotator : Annotator) args orig_lines
    cor_lines w :
  let types := map entry_type (run_entries annotator args orig_lines cor_lines)
  in
  ∃ w', main Samples.no_failures annotator args orig_lines cor_lines w
        = (Ok tt, w')
        ∧ (error_count w').*1 = first_occurrences types
        ∧ NoDup (error_count w').*1
        ∧ ∀ t, counter_get (error_count w') t
               = length (filter (λ t', t' = t) types).
Proof.
  intros types.
  destruct (main_no_failures annotator args orig_lines cor_lines w)
    as (w' & Hrun & [Hcount _] & _ & _).
  fold types in Hcount. exists w'. split; [done|]. rewrite Hcount.
  unfold tally. rewrite tally_from_keys. cbn [fmap list_fmap app].
  assert (Hall : filter (λ y : string, y ∉ []) (first_occurrences types)
                 = first_occurrences types).
  { clear. induction (first_occurrences types) as [|x l IH]; [done|].
    rewrite filter_cons_True by apply not_elem_of_nil. by rewrite IH. }
  rewrite Hall. split_and!; [done | apply first_occurrences_NoDup |].
  intros t. by rewrite tally_from_count.
Qed.

(** X9.  The three files of a file name are aligned when no file operation
    fails: the .src file and the .trg file hold one line per edit filed
    under the name --- the source and the target text of the edit --- for
    the same edits in the same order as the blocks of the .m2 file. *)
Theorem src_trg_files_aligned (annotator : Annotator) args orig_lines
    cor_lines w :
  let xs := run_entries annotator args orig_lines cor_lines in
  ∃ w', main Samples.no_failures annotator args orig_lines cor_lines w
        = (Ok tt, w')
        ∧ ∀ x, x ∈ xs →
            let k := file_name_of (type x.2) in
            let same := filter (λ y, file_name_of (type y.2) = k) xs in
            fs w' !! (file_path k +:+ ".m2")
            = Some (str_concat
                      (map (λ y, source_line y.1.1
                                 +:+ (to_m2 y.2 y.1.2 +:+ nl) +:+ nl) same))
            ∧ fs w' !! (file_path k +:+ ".src")
              = Some (str_concat
                        (map (λ y, (to_srctrg y.2).1 +:+ nl) same))
            ∧ fs w' !! (file_path k +:+ ".trg")
              = Some (str_concat
                        (map (λ y, (to_srctrg y.2).2 +:+ nl) same)).
Proof.
  intros xs.
  destruct (main_no_failures annotator args orig_lines cor_lines w)
    as (w' & Hrun & [_ Hfiles] & _ & _).
  exists w'. split; [done|]. intros x Hx k same.
  destruct (Hfiles (entry_key x)) as (_ & Hm2 & Hsrc & Htrg).
  { apply list_elem_of_In, in_map_iff. exists x.
    split; [done | by apply list_elem_of_In]. }
  split_and!; [exact Hm2 | exact Hsrc | exact Htrg].
Qed.

End Counter.

Section FileNames.
Import ParallelToM2 RunSpec DriverSpec.

Lemma replace_char_inj (t1 t2 : string) :
  str_mem "_" t1 = false → str_mem "_" t2 = false →
  replace_char ":" "_" t1 = replace_char ":" "_" t2 → t1 = t2.
Proof.
  revert t2. induction t1 as [|c1 t1 IH]; intros [|c2 t2]; cbn [replace_char];
    try done.
  cbn [str_mem]. rewrite !orb_false_iff, !bool_decide_eq_false.
  intros [Hc1 Ht1] [Hc2 Ht2] Heq. injection Heq as Hc Ht.
  f_equal; [|by apply IH].
  repeat case_bool_decide; congruence.
Qed.

Lemma replace_char_app (old new : ascii) (s1 s2 : string) :
  replace_char old new (s1 +:+ s2)
  = replace_char old new s1 +:+ replace_char old new s2.
Proof.
  induction s1 as [|c s1 IH]; [done|].
  rewrite str_app_cons. cbn [replace_char]. by rewrite IH, str_app_cons.
Qed.

Lemma replace_char_absent (t : string) :
  str_mem ":" (replace_char ":" "_" t) = false.
Proof.
  induction t as [|c t IH]; [done|]. cbn [replace_char str_mem].
  rewrite IH, orb_false_r. apply bool_decide_eq_false_2.
  destruct (decide (c = ":"%char)) as [->|Hne].
  - by rewrite bool_decide_eq_true_2.
  - by rewrite bool_decide_eq_false_2.
Qed.

(** X10.  Which labels share their files.  The file name of a label has no
    [":"]; labels without ["_"] --- such as ERRANT's --- get distinct file
    names when they are distinct; but two labels that differ only in a
    [":"] against a ["_"] get the same file name, hence the same three
    files. *)
Theorem file_name_of_collisions :
  (∀ t, str_mem ":" (file_name_of t) = false)
  ∧ (∀ t1 t2, str_mem "_" t1 = false → str_mem "_" t2 = false →
              file_name_of t1 = file_name_of t2 → t1 = t2)
  ∧ (∀ s1 s2, file_name_of (s1 +:+ ":" +:+ s2)
              = file_name_of (s1 +:+ "_" +:+ s2)).
Proof.
  unfold file_name_of. split_and!.
  - apply replace_char_absent.
  - apply replace_char_inj.
  - intros s1 s2. by rewrite !replace_char_app.
Qed.

(** X11.  Where the files of a file name go.  For a non-empty file name
    that neither starts nor ends with ["/"], the directory is [out/k] and
    the files are [out/k/k.m2], [out/k/k.src] and [out/k/k.trg].  For a file
    name that starts with ["/"] --- which is the case when the label does
    --- [os.path.join] drops ["out"]: the directory is [k] itself and the
    files are [k.m2], [k.src] and [k.trg], outside [out]. *)
Theorem per_type_paths_shape (k : string) :
  (k ≠ "" → starts_with_sep k = false → ends_with_sep k = false →
   out_dir k = "out/" +:+ k
   ∧ m2_path k = "out/" +:+ k +:+ "/" +:+ k +:+ ".m2"
   ∧ src_path k = "out/" +:+ k +:+ "/" +:+ k +:+ ".src"
   ∧ trg_path k = "out/" +:+ k +:+ "/" +:+ k +:+ ".trg")
  ∧ (starts_with_sep k = true →
     out_dir k = k ∧ m2_path k = k +:+ ".m2" ∧ src_path k = k +:+ ".src"
     ∧ trg_path k = k +:+ ".trg")
  ∧ (∀ t, starts_with_sep (file_name_of t) = starts_with_sep t).
Proof.
  split_and!.
  - intros Hk Hs He.
    assert (Hdir : out_dir k = "out/" +:+ k).
    { unfold out_dir, path_join. cbn [foldl]. unfold path_join2.
      by rewrite Hs. }
    assert (Hpath : file_path k = "out/" +:+ k +:+ "/" +:+ k).
    { unfold file_path, path_join. cbn [foldl].
      change (path_join2 "out" k) with (out_dir k). rewrite Hdir.
      unfold path_join2. rewrite Hs, (ends_with_sep_app "out/" k Hk), He.
      rewrite bool_decide_eq_false_2 by done. cbn [orb].
      by rewrite str_app_assoc. }
    unfold m2_path, src_path, trg_path. rewrite Hpath, !str_app_assoc.
    done.
  - intros Hs.
    assert (Hdir : out_dir k = k).
    { unfold out_dir, path_join. cbn [foldl]. unfold path_join2.
      by rewrite Hs. }
    assert (Hpath : file_path k = k).
    { unfold file_path, path_join. cbn [foldl]. unfold path_join2 at 1.
      by rewrite Hs. }
    unfold m2_path, src_path, trg_path. by rewrite Hpath.
  - intros [|c t]; [done|]. unfold file_name_of. cbn.
    repeat case_bool_decide; congruence.
Qed.

End FileNames.

(** ** The driver on concrete runs *)

Section DriverRuns.
Import ParallelToM2 RunSpec Samples.

(** C2.  The histogram file of a run that observed the two labels R:VERB
    and M:DET once each holds [R:VERB<TAB>1M:DET<TAB>1]: the entries follow
    each other without a line break, so the file is a single line and not
    one line per label. *)
Theorem histogram_entries_not_on_lines_of_their_own :
  two_labels_run.1 = Ok tt
  ∧ error_count two_labels_run.2 = [("R:VERB", 1); ("M:DET", 1)]
  ∧ fs two_labels_run.2 !! "error_file"
    = Some ("R:VERB" +:+ tab +:+ "1" +:+ "M:DET" +:+ tab +:+ "1").
Proof. split_and!; by vm_compute. Qed.

(** C6.  When out/R_VERB/R_VERB.m2 has been opened and opening
    out/R_VERB/R_VERB.src raises, the run ends normally with the file
    object of the .m2 file still open: it was never stored in [out_files],
    so the [finally] clause does not close it. *)
Theorem m2_handle_left_open_when_src_open_fails :
  src_is_a_directory_run.1 = Ok tt
  ∧ io_errors src_is_a_directory_run.2 = [(2, Open "out/R_VERB/R_VERB.src")]
  ∧ out_files src_is_a_directory_run.2 = []
  ∧ handles src_is_a_directory_run.2 !! 0
    = Some {| f_name := "out/R_VERB/R_VERB.m2"; f_closed := false |}.
Proof. split_and!; by vm_compute. Qed.

(** A second way to the same end: when closing the first file raises in
    the [finally] clause, [main] raises and the file objects after it are
    left open. *)
Lemma handles_left_open_when_close_fails :
  m2_close_fails_run.1 = Raise (Exception "No space left on device")
  ∧ out_files m2_close_fails_run.2 = [("R_VERB", (0, 1, 2))]
  ∧ handles m2_close_fails_run.2
    = [ {| f_name := "out/R_VERB/R_VERB.m2"; f_closed := true |};
        {| f_name := "out/R_VERB/R_VERB.src"; f_closed := false |};
        {| f_name := "out/R_VERB/R_VERB.trg"; f_closed := false |} ].
Proof. split_and!; by vm_compute. Qed.

(** C1 (as stated) fails: in [m2_denied_run] opening out/R_VERB/R_VERB.m2
    raises, and [main] returns normally. *)
Lemma io_failure_is_not_fatal : ¬ io_failure_is_fatal.
Proof.
  intros Hfatal.
  destruct (Hfatal m2_denied toy toy_args
              ["a b" +:+ nl; "c" +:+ nl]
              [["R:VERB M:DET" +:+ nl; "M:DET" +:+ nl]]
              empty_world (Ok tt) m2_denied_run.2) as [e He].
  - reflexivity.
  - by vm_compute.
  - exists 1, (Open "out/R_VERB/R_VERB.m2"). split.
    + assert (io_errors m2_denied_run.2 = [(1, Open "out/R_VERB/R_VERB.m2")])
        as -> by (by vm_compute).
      by left.
    + exists "R:VERB". vm_compute. by left.
  - discriminate He.
Qed.

Lemma line_group_failure_not_fatal_witness :
  process_lines no_failures toy toy_args [nl; "x"] empty_world
  = (Ok tt,
     set_stdout
       (stdout empty_world ++ ["Failed to process line: nothing to parse"])
       empty_world).
Proof.
  apply (proj1 (proj2 (line_group_failure_not_fatal no_failures toy toy_args))
           [nl; "x"] (Exception "nothing to parse") empty_world).
  reflexivity.
Defined.

Lemma io_failure_caught_and_logged_witness :
  process_cor m2_denied toy (all_words doc_a_b) doc_a_b toy_args 0
              doc_verb_det empty_world
  = (Ok tt,
     set_stdout
       (stdout (write_edit m2_denied (all_words doc_a_b) 0
                           (toy_edit doc_a_b doc_verb_det "R:VERB")
                           empty_world).2
        ++ ["Failed to align texts: Permission denied"])
       (write_edit m2_denied (all_words doc_a_b) 0
                   (toy_edit doc_a_b doc_verb_det "R:VERB") empty_world).2).
Proof.
  apply (proj2 (io_failure_caught_and_logged m2_denied toy
                  (all_words doc_a_b) doc_a_b toy_args)
           0 doc_verb_det [] (toy_edit doc_a_b doc_verb_det "R:VERB")
           [toy_edit doc_a_b doc_verb_det "M:DET"]
           (Exception "Permission denied") empty_world empty_world).
  - reflexivity.
  - reflexivity.
  - by vm_compute.
Defined.

Lemma per_type_files_produced_witness :
  "out/R_VERB" ∈ dirs two_labels_run.2
  ∧ is_Some (fs two_labels_run.2 !! "out/R_VERB/R_VERB.m2")
  ∧ is_Some (fs two_labels_run.2 !! "out/R_VERB/R_VERB.src")
  ∧ is_Some (fs two_labels_run.2 !! "out/R_VERB/R_VERB.trg")
  ∧ path_join "out" ["R_VERB"] = "out/R_VERB"
  ∧ path_join "out" ["R_VERB"; "R_VERB"] = "out/R_VERB/R_VERB".
Proof.
  destruct (per_type_files_produced toy toy_args ["a b" +:+ nl]
              [["R:VERB M:DET" +:+ nl]] empty_world) as (w' & Hrun & Hfiles).
  assert (w' = two_labels_run.2) as ->
    by (unfold two_labels_run; by rewrite Hrun).
  destruct (Hfiles "R:VERB") as (Hdir & Hm2 & Hsrc & Htrg & Hshape);
    [by vm_compute|].
  destruct Hshape as [Hd Hp]; [discriminate | reflexivity | reflexivity |].
  split_and!; [exact Hdir | exact Hm2 | exact Hsrc | exact Htrg | exact Hd
              | exact Hp].
Defined.


Lemma files_opened_on_first_use_witness :
  ∃ w', write_edit no_failures (all_words doc_a_b) 0
                   (toy_edit doc_a_b doc_verb_det "R:VERB") empty_world
        = (Ok tt, w')
        ∧ handles w'
          = [ {| f_name := "out/R_VERB/R_VERB.m2"; f_closed := false |};
              {| f_name := "out/R_VERB/R_VERB.src"; f_closed := false |};
              {| f_name := "out/R_VERB/R_VERB.trg"; f_closed := false |} ].
Proof.
  destruct (files_opened_on_first_use 0 [] empty_world (all_words doc_a_b) 0
              (toy_edit doc_a_b doc_verb_det "R:VERB"))
    as (_ & w' & Hrun & Hh).
  - by apply (consistent_nil empty_world).
  - exists w'. split; [exact Hrun | exact Hh].
Defined.

Lemma write_edit_effect_witness :
  ∃ w', write_edit no_failures (all_words doc_a_b) 0
                   (toy_edit doc_a_b doc_verb_det "R:VERB") empty_world
        = (Ok tt, w')
        ∧ counter_get (error_count w') "R:VERB" = 1
        ∧ fs w' !! "out/R_VERB/R_VERB.m2"
          = Some ("S a b" +:+ nl
                  +:+ "A 0 1|||R:VERB|||x|||REQUIRED|||-NONE-|||0" +:+ nl
                  +:+ nl)
        ∧ fs w' !! "out/R_VERB/R_VERB.src" = Some ("a b" +:+ nl)
        ∧ fs w' !! "out/R_VERB/R_VERB.trg" = Some ("R:VERB M:DET" +:+ nl).
Proof.
  destruct (write_edit_effect 0 [] empty_world (all_words doc_a_b) 0
              (toy_edit doc_a_b doc_verb_det "R:VERB"))
    as (w' & Hrun & Hcount & _ & Hm2 & Hsrc & Htrg).
  - by apply (consistent_nil empty_world).
  - exists w'. split_and!; [exact Hrun | exact Hcount | exact Hm2
                           | exact Hsrc | exact Htrg].
Defined.

End DriverRuns.

(** ** Further instances *)

Section MoreRuns.
Import ParallelToM2 RunSpec DriverSpec Samples.

Lemma src_trg_files_aligned_witness :
  fs two_labels_run.2 !! "out/R_VERB/R_VERB.src" = Some ("a b" +:+ nl)
  ∧ fs two_labels_run.2 !! "out/R_VERB/R_VERB.trg"
    = Some ("R:VERB M:DET" +:+ nl).
Proof.
  destruct (src_trg_files_aligned toy toy_args ["a b" +:+ nl]
              [["R:VERB M:DET" +:+ nl]] empty_world) as (w' & Hrun & Hfiles).
  assert (w' = two_labels_run.2) as ->
    by (unfold two_labels_run; by rewrite Hrun).
  destruct (Hfiles (all_words doc_a_b, 0,
                    toy_edit doc_a_b doc_verb_det "R:VERB"))
    as (_ & Hsrc & Htrg).
  - by left.
  - split; [exact Hsrc | exact Htrg].
Defined.

Lemma file_name_of_collisions_witness :
  "R:VERB" = "R:VERB"
  ∧ file_name_of ("R" +:+ ":" +:+ "VERB") = file_name_of ("R" +:+ "_" +:+ "VERB").
Proof.
  split.
  - apply (proj1 (proj2 file_name_of_collisions) "R:VERB" "R:VERB");
      reflexivity.
  - apply (proj2 (proj2 file_name_of_collisions)).
Defined.

Lemma per_type_paths_shape_witness :
  (out_dir "R_VERB" = "out/R_VERB"
   ∧ m2_path "R_VERB" = "out/R_VERB/R_VERB.m2"
   ∧ src_path "R_VERB" = "out/R_VERB/R_VERB.src"
   ∧ trg_path "R_VERB" = "out/R_VERB/R_VERB.trg")
  ∧ (out_dir "/tmp/x" = "/tmp/x" ∧ m2_path "/tmp/x" = "/tmp/x.m2"
     ∧ src_path "/tmp/x" = "/tmp/x.src" ∧ trg_path "/tmp/x" = "/tmp/x.trg").
Proof.
  split.
  - apply (proj1 (per_type_paths_shape "R_VERB")); [discriminate | reflexivity..].
  - apply (proj1 (proj2 (per_type_paths_shape "/tmp/x"))). reflexivity.
Defined.

Lemma write_edit_raises_only_io_errors_witness :
  match write_edit m2_denied (all_words doc_a_b) 0
                   (toy_edit doc_a_b doc_verb_det "R:VERB") empty_world with
  | (Ok _, w') => handles_ok w'
  | (Raise x, w') => handles_ok w' ∧ raised_by_env m2_denied x w'
  end.
Proof.
  apply (write_edit_raises_only_io_errors m2_denied (all_words doc_a_b) 0
           (toy_edit doc_a_b doc_verb_det "R:VERB") empty_world).
  intros k f0 f1 f2 Hget. discriminate Hget.
Defined.

Lemma recorded_files_stay_open_witness :
  ∃ w', for_each [["a b" +:+ nl; "R:VERB M:DET" +:+ nl]]
                 (process_lines m2_denied toy toy_args) empty_world
        = (Ok tt, w')
        ∧ handles_ok w'.
Proof.
  apply (recorded_files_stay_open m2_denied toy toy_args
           [["a b" +:+ nl; "R:VERB M:DET" +:+ nl]] empty_world).
  intros k f0 f1 f2 Hget. discriminate Hget.
Defined.

Lemma per_type_and_annotator_failures_never_end_run_witness :
  ∃ w', main m2_denied toy toy_args
             ["a b" +:+ nl; "c" +:+ nl]
             [["R:VERB M:DET" +:+ nl; "M:DET" +:+ nl]] empty_world
        = (Ok tt, w').
Proof.
  apply (per_type_and_annotator_failures_never_end_run m2_denied toy toy_args
           ["a b" +:+ nl; "c" +:+ nl]
           [["R:VERB M:DET" +:+ nl; "M:DET" +:+ nl]] empty_world).
  intros n [p|p|p d|p] Hop; cbn in Hop; try done.
  subst p. reflexivity.
Defined.

Lemma main_aborts_when_error_file_cannot_be_opened_witness :
  (main error_file_denied toy toy_args ["a b" +:+ nl]
        [["R:VERB M:DET" +:+ nl]] empty_world).1
  = Raise (Exception "Permission denied").
Proof.
  destruct (main_aborts_when_error_file_cannot_be_opened error_file_denied toy
              toy_args ["a b" +:+ nl] [["R:VERB M:DET" +:+ nl]] empty_world
              "Permission denied") as (w1 & w2 & _ & _ & Hmain).
  - reflexivity.
  - reflexivity.
  - by rewrite Hmain.
Defined.


(** C3 without its proviso fails: in [m2_denied_run] the label R:VERB is
    counted, and out/R_VERB/R_VERB.m2 does not exist. *)
Lemma label_counted_without_files : ¬ every_label_has_its_files.
Proof.
  intros Hall.
  destruct (Hall m2_denied toy toy_args
              ["a b" +:+ nl; "c" +:+ nl]
              [["R:VERB M:DET" +:+ nl; "M:DET" +:+ nl]]
              empty_world m2_denied_run.1 m2_denied_run.2) with "R:VERB"
    as (_ & [c Hc] & _).
  - unfold m2_denied_run. by destruct (main _ _ _ _ _ _).
  - by vm_compute.
  - vm_compute in Hc. discriminate Hc.
Qed.


(** C10 without its proviso fails: when out/R_VERB/R_VERB.m2 cannot be
    opened, the loop body counts the edit and appends nothing. *)
Lemma edit_counted_but_not_written : ¬ every_edit_is_written.
Proof.
  intros Hall.
  destruct (Hall m2_denied 0 [] empty_world (all_words doc_a_b) 0
              (toy_edit doc_a_b doc_verb_det "R:VERB")
              (write_edit m2_denied (all_words doc_a_b) 0
                 (toy_edit doc_a_b doc_verb_det "R:VERB") empty_world).1
              (write_edit m2_denied (all_words doc_a_b) 0
                 (toy_edit doc_a_b doc_verb_det "R:VERB") empty_world).2)
    as (_ & Hm2 & _).
  - by apply (consistent_nil empty_world).
  - by destruct (write_edit _ _ _ _ _).
  - vm_compute in Hm2. discriminate Hm2.
Qed.

End MoreRuns.
